(** * Spiral search and teleoperation of the rover

    A shallow embedding of [src/navigation/search.py], that is of
    [SearchTrajectory] (the square-spiral generator and its cursor) and of
    [SearchState.evaluate] (one control cycle of the search behaviour), and
    of [src/teleop/jetson/jetson_teleop.py] (the shaping of the joystick
    axes and the two teleop callbacks), with the properties of the design
    document and further properties of the code proved about them.

    Number model of the spiral.  [dirs], the coefficient column and the
    deltas are int64 arrays: their products wrap around modulo 2^64
    ([distance] is a Python [int] in the range of int64).  The centre is a
    float64 array, as is the position of the rover that [evaluate] passes:
    [np.vstack] converts the deltas to float64 and the running sum is a sum
    of float64 numbers, each addition rounded to nearest, ties to even.
    float64 is the binary64 of the specification of floating-point
    arithmetic of the Standard Library ([SpecFloat], precision 53, [emax]
    1024).  What holds only while no product wraps around and no sum is
    rounded is stated on [exact_range]; there an integer centre given as an
    int64 array, which numpy sums in int64, yields the same waypoints. *)

From Stdlib Require Import String ZArith QArith Qabs List Bool Lia Lqa.
From Stdlib Require Import Floats.SpecFloat Zpower.
Import ListNotations.

Local Open Scope Z_scope.

(** ** The float64 numbers of numpy *)

Module F64.

Definition prec : Z := 53.
Definition emax : Z := 1024.

Definition float : Type := spec_float.

(** [0.0] *)
Definition zero : float := S754_zero false.

(** [x + y] and [x - y], rounded to nearest, ties to even. *)
Definition add : float -> float -> float := SFadd prec emax.
Definition sub : float -> float -> float := SFsub prec emax.

(** [x == y] *)
Definition eqb : float -> float -> bool := SFeqb.

(** The float64 of an integer ([astype(float64)] of an int64, [float(n)]):
    the nearest float64, ties to even. *)
Definition of_Z (z : Z) : float := binary_normalize prec emax z 0 false.

(** The integer part of a finite float64, towards zero ([int(x)]); 0 for
    an infinity or a NaN, which have none. *)
Definition trunc (x : float) : Z :=
  match x with
  | S754_finite s m e =>
      cond_Zopp s
        match e with
        | Zneg n => Zpos m / 2 ^ Zpos n
        | _ => Zpos m * 2 ^ e
        end
  | _ => 0
  end.

(** A mantissa with nothing shifted out of it yet. *)
Definition rec0 (m : Z) : shr_record := Build_shr_record m false false.

End F64.

(** ** The array operations of numpy used by [spiral_traj]

    A two-column int64 array is a list of rows [Z * Z], a two-column
    float64 array a list of rows [float * float], a three-column float64
    array a list of rows [float * float * float]; a column vector (shape
    [(n, 1)]) is a list. *)

Module Np.

Definition Row2 : Type := Z * Z.
Definition Row2f : Type := F64.float * F64.float.
Definition Row3 : Type := F64.float * F64.float * F64.float.

(** The value an int64 keeps of an integer: arithmetic on int64 arrays
    wraps around silently. *)
Definition wrap64 (z : Z) : Z := (z + 2 ^ 63) mod 2 ^ 64 - 2 ^ 63.

(** [np.tile(a, (reps, 1))]: the rows of [a], [reps] times over. *)
Definition tile {A : Type} (a : list A) (reps : nat) : list A :=
  concat (repeat a reps).

(** [np.arange(start, stop)]. *)
Definition arange (start stop : Z) : list Z :=
  map (fun i => start + Z.of_nat i) (seq 0 (Z.to_nat (stop - start))).

(** [np.repeat(a, n)]: every element [n] times, in place. *)
Definition repeat_each {A : Type} (a : list A) (n : nat) : list A :=
  flat_map (fun x => repeat x n) a.

(** [d * a] for a scalar [d] and an int64 array [a]. *)
Definition scalar_mul (d : Z) (a : list Z) : list Z :=
  map (fun c => wrap64 (d * c)) a.

(** One row of [deltas *= dist_coefs]: the coefficient of the row is
    broadcast over its two columns. *)
Definition scale (c : Z) (r : Row2) : Row2 :=
  (wrap64 (fst r * c), wrap64 (snd r * c)).

(** [deltas *= dist_coefs] for [deltas] of shape [(n, 2)] and [dist_coefs]
    of shape [(n, 1)], both int64. *)
Definition mul_col (deltas : list Row2) (coefs : list Z) : list Row2 :=
  map (fun rc => scale (snd rc) (fst rc)) (combine deltas coefs).

(** A row of an int64 array in a float64 array. *)
Definition astype_float (r : Row2) : Row2f :=
  (F64.of_Z (fst r), F64.of_Z (snd r)).

Definition add2 (p q : Row2f) : Row2f :=
  (F64.add (fst p) (fst q), F64.add (snd p) (snd q)).

(** [np.cumsum(a, axis=0)], the running sum of the rows of a float64
    array. *)
Fixpoint cumsum_from (acc : Row2f) (a : list Row2f) : list Row2f :=
  match a with
  | [] => []
  | r :: a' => add2 acc r :: cumsum_from (add2 acc r) a'
  end.

Definition cumsum (a : list Row2f) : list Row2f :=
  match a with
  | [] => []
  | r :: a' => r :: cumsum_from r a'
  end.

(** [np.vstack((center, deltas))] for a float64 [center] and int64
    [deltas]: a float64 array. *)
Definition vstack (center : Row2f) (deltas : list Row2) : list Row2f :=
  center :: map astype_float deltas.

(** [np.zeros(n).reshape(-1, 1)]. *)
Definition zeros (n : nat) : list F64.float := repeat F64.zero n.

(** [np.hstack((a, col))] for [a] of shape [(n, 2)] and [col] of shape
    [(n, 1)]. *)
Definition hstack (a : list Row2f) (col : list F64.float) : list Row3 :=
  map (fun rz => (fst (fst rz), snd (fst rz), snd rz)) (combine a col).

(** The float64 rows of integer coordinates. *)
Definition point2 (x y : Z) : Row2f := (F64.of_Z x, F64.of_Z y).
Definition point (x y z : Z) : Row3 := (F64.of_Z x, F64.of_Z y, F64.of_Z z).

End Np.

(** ** [SearchTrajectory] *)

Record SearchTrajectory : Type := mkTraj {
  coordinates : list Np.Row3;   (* coordinates of the trajectory *)
  fid_id : Z;                   (* associated fiducial *)
  cur_pt : Z                    (* tracked coordinate index, 0 by default *)
}.

(** The class variable [dirs]. *)
Definition dirs : list Np.Row2 := [(0, -1); (-1, 0); (0, 1); (1, 0)].

(** [len(self.coordinates)]. *)
Definition len (t : SearchTrajectory) : Z := Z.of_nat (length (coordinates t)).

(** Indexing [a[i]] of a numpy array by a Python integer: a negative index
    counts from the end, an index outside [-len, len) raises [IndexError]
    ([None]). *)
Definition py_index {A : Type} (a : list A) (i : Z) : option A :=
  let n := Z.of_nat (length a) in
  if (0 <=? i) && (i <? n) then nth_error a (Z.to_nat i)
  else if (- n <=? i) && (i <? 0) then nth_error a (Z.to_nat (i + n))
  else None.

Definition get_cur_pt (t : SearchTrajectory) : option Np.Row3 :=
  py_index (coordinates t) (cur_pt t).

(** [increment_point] mutates [cur_pt] and returns whether the trajectory is
    finished: the result is the flag and the trajectory after the call. *)
Definition increment_point (t : SearchTrajectory) : bool * SearchTrajectory :=
  let t' := mkTraj (coordinates t) (fid_id t) (cur_pt t + 1) in
  (len t' <=? cur_pt t', t').

(** The four steps of [spiral_traj], named as its local variables. *)
Definition spiral_deltas (num_turns : nat) (distance : Z) : list Np.Row2 :=
  let deltas := Np.tile dirs num_turns in
  let dist_coefs :=
    Np.scalar_mul distance
      (Np.repeat_each (Np.arange 1 (Z.of_nat num_turns * 2 + 1)) 2) in
  Np.mul_col deltas dist_coefs.

Definition spiral_coordinates (center : Np.Row2f) (num_turns : nat)
    (distance : Z) : list Np.Row2f :=
  Np.cumsum (Np.vstack center (spiral_deltas num_turns distance)).

Definition spiral_traj (center : Np.Row2f) (num_turns : nat) (distance : Z)
    (fid : Z) : SearchTrajectory :=
  let coords := spiral_coordinates center num_turns distance in
  mkTraj (Np.hstack coords (Np.zeros (length coords))) fid 0.

(** Row [k] of [dirs]. *)
Definition dir (k : nat) : Np.Row2 := nth k dirs (0, 0).

(** Where the spiral is after [4 * q + r] legs of a unit spiral around the
    origin: the corners of turn [q]. *)
Definition leg (q : Z) (r : nat) : Np.Row2 :=
  match r with
  | 0%nat => (q, q)
  | 1%nat => (q, - (q + 1))
  | 2%nat => (- (q + 1), - (q + 1))
  | _ => (- (q + 1), q + 1)
  end.

Definition spiral_offset (k : nat) : Np.Row2 :=
  leg (Z.of_nat (k / 4)) (k mod 4).

(** [cur_pt >= len(coordinates)]: no point is left. *)
Definition exhausted (t : SearchTrajectory) : bool := len t <=? cur_pt t.

(** The invariant of the design document on the cursor. *)
Definition cursor_invariant (t : SearchTrajectory) : Prop :=
  0 <= cur_pt t <= len t.


(** ** The spiral in exact integer arithmetic

    The same operations on integers of any size, for comparison: what
    [spiral_traj] computes when no product wraps around and no sum is
    rounded. *)

Module Exact.

Definition scalar_mul (d : Z) (a : list Z) : list Z := map (Z.mul d) a.

Definition scale (c : Z) (r : Np.Row2) : Np.Row2 := (fst r * c, snd r * c).

Definition mul_col (deltas : list Np.Row2) (coefs : list Z) : list Np.Row2 :=
  map (fun rc => scale (snd rc) (fst rc)) (combine deltas coefs).

Definition add2 (p q : Np.Row2) : Np.Row2 := (fst p + fst q, snd p + snd q).

Fixpoint cumsum_from (acc : Np.Row2) (a : list Np.Row2) : list Np.Row2 :=
  match a with
  | [] => []
  | r :: a' => add2 acc r :: cumsum_from (add2 acc r) a'
  end.

Definition deltas (num_turns : nat) (distance : Z) : list Np.Row2 :=
  mul_col (Np.tile dirs num_turns)
    (scalar_mul distance
       (Np.repeat_each (Np.arange 1 (Z.of_nat num_turns * 2 + 1)) 2)).

Definition coordinates (center : Np.Row2) (num_turns : nat) (distance : Z)
    : list Np.Row2 :=
  center :: cumsum_from center (deltas num_turns distance).

(** The integer rows that float64 holds without rounding. *)
Definition representable (r : Np.Row2) : Prop :=
  Z.abs (fst r) < 2 ^ 53 /\ Z.abs (snd r) < 2 ^ 53.

(** The float64 waypoint at an integer row, with z = 0.0. *)
Definition waypoint (r : Np.Row2) : Np.Row3 :=
  (F64.of_Z (fst r), F64.of_Z (snd r), F64.zero).

End Exact.

(** The inputs for which the arithmetic of [spiral_traj] is exact: an
    integer centre [(cx, cy)] such that every product and every partial sum
    stays below 2^53 in absolute value. *)
Definition exact_range (center : Np.Row2) (num_turns : nat) (distance : Z)
    : Prop :=
  Z.abs (fst center) + 2 * Z.of_nat num_turns * Z.abs distance < 2 ^ 53 /\
  Z.abs (snd center) + 2 * Z.of_nat num_turns * Z.abs distance < 2 ^ 53.

(** ** The search state: [SearchState.evaluate]

    [evaluate] reads and writes [self.traj], calls the collaborators held by
    [self.context] and may raise.  It is embedded in a state-and-exception
    monad: the state is [self.traj] together with the log of the calls made
    on the context, and an exception leaves the state as it was when it was
    raised. *)

Definition STOP_THRESH : Q := (2 # 10)%Q.
Definition DRIVE_FWD_THRESH : Q := (95 # 100)%Q.

(** The three outcomes registered by [SearchState.__init__]. *)
Definition RESUME_COURSE : string := "waypoint_traverse".
Definition HANDOFF_TO_FIDUCIAL_APPROACH : string := "single_fiducial".
Definition CONTINUE_SEARCH : string := "search".

Inductive Exn : Type :=
| IndexError       (* [coordinates[cur_pt]] out of range *)
| AttributeError.  (* a method called on [self.traj] when it is [None] *)

Inductive Result (A : Type) : Type :=
| Ok (a : A)
| Raise (e : Exn).

Arguments Ok {A} a.
Arguments Raise {A} e.

(** What [context.py] and [drive.py] provide and [search.py] imports: the
    pose of the rover with its [position], the velocity command, the drive
    law and the identifier [Environment.NO_FIDUCIAL]. *)
Class Platform : Type := {
  Pose : Type;
  position : Pose -> Np.Row3;
  Twist : Type;
  get_drive_command : Np.Row3 -> Pose -> Q -> Q -> Twist * bool;
  NO_FIDUCIAL : Z
}.

Section Controller.

Context {P : Platform}.

(** What the collaborators answer during one cycle.  The cycle is one
    synchronous call, so every call of a collaborator within it gets the
    same answer. *)
Record Context : Type := mkContext {
  waypoint_fid : Z;                   (* course.current_waypoint().fiducial_id *)
  rover_pose : Pose;                  (* rover.get_pose() *)
  current_fid_pos : option Np.Row3    (* env.current_fid_pos() *)
}.

(** The calls made on [self.context]. *)
Inductive Event : Type :=
| EvCurrentWaypoint
| EvGetPose
| EvSendDrive (cmd_vel : Twist)
| EvCurrentFidPos.

Record SearchState : Type := mkState {
  traj : option SearchTrajectory;   (* self.traj *)
  trace : list Event                (* calls on self.context, oldest first *)
}.

Definition M (A : Type) : Type := SearchState -> Result A * SearchState.

Definition ret {A : Type} (a : A) : M A := fun s => (Ok a, s).

Definition bind {A B : Type} (m : M A) (k : A -> M B) : M B :=
  fun s =>
    match m s with
    | (Ok a, s') => k a s'
    | (Raise e, s') => (Raise e, s')
    end.

Definition raise {A : Type} (e : Exn) : M A := fun s => (Raise e, s).

Notation "x <- m ;; k" := (bind m (fun x => k))
  (at level 61, m at next level, right associativity).
Notation "m ;;; k" := (bind m (fun _ => k))
  (at level 61, right associativity).

Definition emit (e : Event) : M unit :=
  fun s => (Ok tt, mkState (traj s) (trace s ++ [e])).

Definition read_traj : M (option SearchTrajectory) :=
  fun s => (Ok (traj s), s).

Definition write_traj (t : SearchTrajectory) : M unit :=
  fun s => (Ok tt, mkState (Some t) (trace s)).

(** [self.traj.<method>]: the object held by [self.traj]. *)
Definition self_traj : M SearchTrajectory :=
  o <- read_traj ;;
  match o with
  | Some t => ret t
  | None => raise AttributeError
  end.

(** [self.traj is None or self.traj.fid_id != waypoint.fiducial_id] *)
Definition needs_rebind (o : option SearchTrajectory) (waypoint : Z) : bool :=
  match o with
  | None => true
  | Some t => negb (fid_id t =? waypoint)
  end.

(** [position[0:2]] *)
Definition planar (p : Np.Row3) : Np.Row2f := (fst (fst p), snd (fst p)).

Section Cycle.

Variable ctx : Context.

Definition current_waypoint : M Z :=
  emit EvCurrentWaypoint ;;; ret (waypoint_fid ctx).

Definition get_pose : M Pose :=
  emit EvGetPose ;;; ret (rover_pose ctx).

Definition send_drive_command (cmd_vel : Twist) : M unit :=
  emit (EvSendDrive cmd_vel).

Definition env_current_fid_pos : M (option Np.Row3) :=
  emit EvCurrentFidPos ;;; ret (current_fid_pos ctx).

(** Lines 79-86: the waypoint is read, and a trajectory is generated
    when there is none for it. *)
Definition bind_trajectory : M Z :=
  waypoint <- current_waypoint ;;
  o <- read_traj ;;
  (if needs_rebind o waypoint then
     pose <- get_pose ;;
     write_traj (spiral_traj (planar (position pose)) 5 2 waypoint)
   else ret tt) ;;;
  ret waypoint.

(** [self.traj.get_cur_pt()] *)
Definition traj_get_cur_pt : M Np.Row3 :=
  t <- self_traj ;;
  match get_cur_pt t with
  | Some p => ret p
  | None => raise IndexError
  end.

(** [self.traj.increment_point()] *)
Definition traj_increment_point : M bool :=
  t <- self_traj ;;
  let (finished, t') := increment_point t in
  write_traj t' ;;; ret finished.

(** Lines 101-107: the command is sent, then the fiducial is looked
    for; [and] does not evaluate its right operand when the left one
    is false. *)
Definition send_and_look (cmd_vel : Twist) : M string :=
  send_drive_command cmd_vel ;;;
  current_wp <- current_waypoint ;;
  if negb (current_wp =? NO_FIDUCIAL) then
    fid_pos <- env_current_fid_pos ;;
    match fid_pos with
    | Some _ => ret HANDOFF_TO_FIDUCIAL_APPROACH
    | None => ret CONTINUE_SEARCH
    end
  else ret CONTINUE_SEARCH.

Definition evaluate : M string :=
  bind_trajectory ;;;
  target_pos <- traj_get_cur_pt ;;
  pose <- get_pose ;;
  let (cmd_vel, arrived) :=
    get_drive_command target_pos pose STOP_THRESH DRIVE_FWD_THRESH in
  if arrived then
    finished <- traj_increment_point ;;
    if finished then ret RESUME_COURSE
    else send_and_look cmd_vel
  else send_and_look cmd_vel.

End Cycle.

(** [SearchState.__init__]: no trajectory yet. *)
Definition init : SearchState := mkState None [].

(** The trajectory that is active once lines 79-86 have run, and the
    calls these lines make. *)
Definition bound_traj (ctx : Context) (s : SearchState) : SearchTrajectory :=
  match traj s with
  | Some t =>
      if negb (fid_id t =? waypoint_fid ctx)
      then spiral_traj (planar (position (rover_pose ctx))) 5 2 (waypoint_fid ctx)
      else t
  | None =>
      spiral_traj (planar (position (rover_pose ctx))) 5 2 (waypoint_fid ctx)
  end.

Definition bind_events (ctx : Context) (s : SearchState) : list Event :=
  if needs_rebind (traj s) (waypoint_fid ctx)
  then [EvCurrentWaypoint; EvGetPose] else [EvCurrentWaypoint].

(** The label and the calls of lines 101-107. *)
Definition look_label (ctx : Context) : string :=
  if negb (waypoint_fid ctx =? NO_FIDUCIAL) then
    match current_fid_pos ctx with
    | Some _ => HANDOFF_TO_FIDUCIAL_APPROACH
    | None => CONTINUE_SEARCH
    end
  else CONTINUE_SEARCH.

Definition look_events (ctx : Context) (cmd_vel : Twist) : list Event :=
  EvSendDrive cmd_vel :: EvCurrentWaypoint ::
  (if negb (waypoint_fid ctx =? NO_FIDUCIAL) then [EvCurrentFidPos] else []).

(** Successive cycles, one context per cycle; the run stops at the first
    exception. *)
Fixpoint run (ctxs : list Context) (s : SearchState)
    : list (Result string) * SearchState :=
  match ctxs with
  | [] => ([], s)
  | ctx :: rest =>
      match evaluate ctx s with
      | (Ok l, s') => let (ls, s'') := run rest s' in (Ok l :: ls, s'')
      | (Raise e, s') => ([Raise e], s')
      end
  end.

End Controller.


(** ** A platform to run the controller on

    Poses are positions, the command is the planar vector to the target,
    and the rover has arrived when its planar position is the target's. *)

Definition grid_drive (target pose : Np.Row3) (stop_thresh fwd_thresh : Q)
    : Np.Row2f * bool :=
  ((F64.sub (fst (fst target)) (fst (fst pose)),
    F64.sub (snd (fst target)) (snd (fst pose))),
   F64.eqb (fst (fst target)) (fst (fst pose))
   && F64.eqb (snd (fst target)) (snd (fst pose))).

Definition grid : Platform := {|
  Pose := Np.Row3;
  position := fun p => p;
  Twist := Np.Row2f;
  get_drive_command := grid_drive;
  NO_FIDUCIAL := -1
|}.

(** A trajectory of one turn, its cursor on the last point. *)
Definition last_leg : SearchTrajectory :=
  mkTraj (coordinates (spiral_traj (Np.point2 0 0) 1 2 7)) 7 4.

(** The same trajectory with nothing left. *)
Definition spent : SearchTrajectory :=
  mkTraj (coordinates (spiral_traj (Np.point2 0 0) 1 2 7)) 7 5.

(** A trajectory of one turn, its cursor on the second point. *)
Definition first_leg : SearchTrajectory :=
  mkTraj (coordinates (spiral_traj (Np.point2 0 0) 1 2 7)) 7 1.

(** The rover on the last point of [last_leg], a fiducial in view. *)
Definition on_last_point : Context (P := grid) :=
  mkContext (P := grid) 7 (Np.point 2 2 0) (Some (Np.point 1 1 0)).

(** The rover at the centre, the fiducial of waypoint 7 in view. *)
Definition at_center_seeing : Context (P := grid) :=
  mkContext (P := grid) 7 (Np.point 0 0 0) (Some (Np.point 1 1 0)).

(** The rover at (3, -4), sent to the waypoint of fiducial 9. *)
Definition sent_to_9 : Context (P := grid) :=
  mkContext (P := grid) 9 (Np.point 3 (-4) 0) None.

(** The rover at (3, -4), still on the waypoint of fiducial 7. *)
Definition far_from_7 : Context (P := grid) :=
  mkContext (P := grid) 7 (Np.point 3 (-4) 0) None.

(** The rover on each point of the spiral of [evaluate] in turn, nothing in
    view. *)
Definition tour : list (Context (P := grid)) :=
  map (fun p => mkContext (P := grid) 7 p None)
    (coordinates (spiral_traj (Np.point2 0 0) 5 2 7)).

(** ** Measures on the spiral *)

(** Distance of a point from the centre in the maximum norm: the half side
    of the smallest square around the centre that holds the point. *)
Definition square_radius (center : Np.Row2) (p : Np.Row3) : Z :=
  Z.max (Z.abs (F64.trunc (fst (fst p)) - fst center))
    (Z.abs (F64.trunc (snd (fst p)) - snd center)).


(** Length of the way from one point to the next along the axes. *)
Definition leg_length (p q : Np.Row3) : Z :=
  Z.abs (F64.trunc (fst (fst q)) - F64.trunc (fst (fst p)))
  + Z.abs (F64.trunc (snd (fst q)) - F64.trunc (snd (fst p))).

(** Length of the polyline through the points, in order. *)
Fixpoint path_length (l : list Np.Row3) : Z :=
  match l with
  | p :: (q :: _) as rest => leg_length p q + path_length rest
  | _ => 0
  end.

(** Sum of a column. *)
Definition total (l : list Z) : Z := fold_right Z.add 0 l.

(** A unit vector along an axis, as the rows of [dirs] are. *)
Definition axis_unit (u : Np.Row2) : Prop :=
  Z.abs (fst u) + Z.abs (snd u) = 1.

(** The outcomes [SearchState.__init__] registers with [add_outcomes]. *)
Definition add_outcomes : list string :=
  ["waypoint_traverse"; "single_fiducial"; "search"]%string.

Section Sends.

Context {P : Platform}.

(** The commands given to [send_drive_command] among some calls. *)
Fixpoint sent_commands (evs : list Event) : list Twist :=
  match evs with
  | [] => []
  | EvSendDrive c :: evs' => c :: sent_commands evs'
  | _ :: evs' => sent_commands evs'
  end.

End Sends.


(** ** Teleoperation: [src/teleop/jetson/jetson_teleop.py]

    The two callbacks of the teleop node and the functions they use.
    Numbers are rationals: the arithmetic of Python floats is taken as
    exact, so rounding, overflow, infinities, NaN and the sign of zero are
    not modelled; a division by zero raises, as in Python.  A callback is a
    computation in a monad that carries the messages published so far and
    may raise. *)

Module Teleop.

Local Open Scope Q_scope.

Inductive Error : Type :=
| KeyError (key : string)    (* [d[key]] with [key] not in [d] *)
| IndexError                 (* [a[i]] with [i] out of range *)
| ZeroDivisionError.         (* [x / 0] *)

(** A dict with string keys, in insertion order. *)
Definition Dict (V : Type) : Type := list (string * V).

Fixpoint dict_get {V : Type} (d : Dict V) (key : string) : option V :=
  match d with
  | [] => None
  | (k, v) :: d' => if String.eqb k key then Some v else dict_get d' key
  end.

(** [d[key] = v]: the value of an existing key is replaced where it is, a
    new key is added at the end. *)
Fixpoint dict_set {V : Type} (d : Dict V) (key : string) (v : V) : Dict V :=
  match d with
  | [] => [(key, v)]
  | (k, v') :: d' =>
      if String.eqb k key then (k, v) :: d' else (k, v') :: dict_set d' key v
  end.

(** [d[key]] *)
Definition getitem {V : Type} (d : Dict V) (key : string) : Error + V :=
  match dict_get d key with
  | Some v => inr v
  | None => inl (KeyError key)
  end.

(** [a[i]] for a list or tuple [a]. *)
Definition index {A : Type} (a : list A) (i : Z) : Error + A :=
  match py_index a i with
  | Some x => inr x
  | None => inl IndexError
  end.

(** [math.copysign(x, y)]: the magnitude of [x] with the sign of [y]. *)
Definition copysign (x y : Q) : Q :=
  if Qle_bool 0 y then Qabs x else - Qabs x.

Definition quadratic (val : Q) : Q := copysign (val ^ 2) val.

Definition deadzone (magnitude threshold : Q) : Error + Q :=
  let temp_mag := Qabs magnitude in
  if Qle_bool temp_mag threshold then
    inr (copysign 0 magnitude)
  else if Qeq_bool (1 - threshold) 0 then
    inl ZeroDivisionError
  else
    inr (copysign ((temp_mag - threshold) / (1 - threshold)) magnitude).

(** The messages: [sensor_msgs/JointState] without its header,
    [mrover/Chassis], [geometry_msgs/Twist] and [sensor_msgs/Joy]. *)
Record JointState : Type := mkJointState {
  name : list string;
  position : list Q;
  velocity : list Q;
  effort : list Q
}.

Record Chassis : Type := mkChassis { omega_l : Q; omega_r : Q }.

Record Vector3 : Type := mkVector3 { x : Q; y : Q; z : Q }.

Record Twist : Type := mkTwist { linear : Vector3; angular : Vector3 }.

Record Joy : Type := mkJoy { axes : list Q; buttons : list Z }.

(** [JointState()] *)
Definition JointState_new : JointState := mkJointState [] [] [] [].

(** [joints[joint] = JointState()] then
    [joints[joint].velocity.append(value)]; the dict is changed in place
    in the source and returned here. *)
Definition create_joint_msg (joints : Dict JointState) (joint : string)
    (value : Q) : Error + Dict JointState :=
  let joints := dict_set joints joint JointState_new in
  match getitem joints joint with
  | inl e => inl e
  | inr js =>
      inr (dict_set joints joint
             (mkJointState (name js) (position js) (velocity js ++ [value])
                (effort js)))
  end.

(** What a publisher is given, with the topic it was created for. *)
Inductive Message : Type :=
| ChassisMsg (command : Chassis)
| JointStateMsg (js : JointState).

Definition Published : Type := list (string * Message).

Definition T (A : Type) : Type := Published -> (Error + A) * Published.

Definition ret {A : Type} (a : A) : T A := fun log => (inr a, log).

Definition bind {A B : Type} (m : T A) (k : A -> T B) : T B :=
  fun log =>
    match m log with
    | (inr a, log') => k a log'
    | (inl e, log') => (inl e, log')
    end.

(** A computation that publishes nothing. *)
Definition lift {A : Type} (r : Error + A) : T A := fun log => (r, log).

Definition publish (topic : string) (m : Message) : T unit :=
  fun log => (inr tt, log ++ [(topic, m)]).

Local Notation "x <- m ;; k" := (bind m (fun x => k))
  (at level 61, m at next level, right associativity).
Local Notation "m ;;; k" := (bind m (fun _ => k))
  (at level 61, right associativity).

(** [a / b] for Python numbers. *)
Definition truediv (a b : Q) : Error + Q :=
  if Qeq_bool b 0 then inl ZeroDivisionError else inr (a / b).

Record Drive : Type := mkDrive {
  joystick_mappings : Dict Z;
  drive_config : Dict (Dict Q);
  TRACK_RADIUS : Q;
  WHEEL_RADIUS : Q
}.

(** The topic of [Drive.drive_vel_pub]. *)
Definition drive_vel_pub : string := "/drive_cmd_wheels".

Definition teleop_drive_callback (self : Drive) (msg : Twist) : T unit :=
  let v := x (linear msg) in
  let omega := z (angular msg) * 2 in
  omega_l <- lift (truediv (v - omega * TRACK_RADIUS self / 2) (WHEEL_RADIUS self)) ;;
  omega_r <- lift (truediv (v + omega * TRACK_RADIUS self / 2) (WHEEL_RADIUS self)) ;;
  publish drive_vel_pub (ChassisMsg (mkChassis omega_l omega_r)).

Record ArmControl : Type := mkArmControl {
  xbox_mappings : Dict Z;
  ra_config : Dict (Dict Q)
}.

(** The topics of the publishers of [ArmControl]. *)
Definition joint_a_pub : string := "/ra/open_loop/joint_a".
Definition joint_b_pub : string := "/ra/open_loop/joint_b".
Definition joint_c_pub : string := "/ra/open_loop/joint_c".
Definition joint_d_pub : string := "/ra/open_loop/joint_d".
Definition joint_e_pub : string := "/ra/open_loop/joint_e".
Definition joint_f_pub : string := "/ra/open_loop/joint_f".
Definition finger_pub : string := "/hand/open_loop/finger".
Definition grip_pub : string := "/hand/open_loop/grip".

Section Callback.

Variable self : ArmControl.
Variable msg : Joy.

Local Notation "x <~ m ;; k" :=
  (match m with inl e => inl e | inr x => k end)
  (at level 61, m at next level, right associativity).

(** [self.ra_config[joint]["multiplier"]] *)
Definition multiplier (joint : string) : Error + Q :=
  c <~ getitem (ra_config self) joint ;;
  getitem c "multiplier".

(** [msg.axes[self.xbox_mappings[key]]] *)
Definition axis (key : string) : Error + Q :=
  i <~ getitem (xbox_mappings self) key ;;
  index (axes msg) i.

(** [msg.buttons[self.xbox_mappings[key]]] *)
Definition button (key : string) : Error + Z :=
  i <~ getitem (xbox_mappings self) key ;;
  index (buttons msg) i.

(** [msg.buttons[...[pos]] - msg.buttons[...[neg]]] *)
Definition button_pair (pos neg : string) : Error + Q :=
  p <~ button pos ;;
  n <~ button neg ;;
  inr (inject_Z (p - n)).

(** Lines 81-135: the eight calls of [create_joint_msg], the arguments of
    each evaluated from left to right. *)
Definition joint_commands : Error + Dict JointState :=
  let joints : Dict JointState := [] in
  m <~ multiplier "joint_a" ;;
  a <~ axis "left_js_x" ;;
  d <~ deadzone a (15 # 100) ;;
  joints <~ create_joint_msg joints "joint_a" (m * quadratic d) ;;
  m <~ multiplier "joint_b" ;;
  a <~ axis "left_js_y" ;;
  d <~ deadzone a (15 # 100) ;;
  joints <~ create_joint_msg joints "joint_b" (m * quadratic (- d)) ;;
  m <~ multiplier "joint_c" ;;
  a <~ axis "right_js_y" ;;
  d <~ deadzone a (15 # 100) ;;
  joints <~ create_joint_msg joints "joint_c" (m * quadratic (- d)) ;;
  m <~ multiplier "joint_d" ;;
  a <~ axis "right_js_x" ;;
  d <~ deadzone a (15 # 100) ;;
  joints <~ create_joint_msg joints "joint_d" (m * quadratic d) ;;
  m <~ multiplier "joint_e" ;;
  b <~ button_pair "right_trigger" "left_trigger" ;;
  joints <~ create_joint_msg joints "joint_e" (m * quadratic b) ;;
  m <~ multiplier "joint_f" ;;
  b <~ button_pair "right_bumper" "left_bumper" ;;
  joints <~ create_joint_msg joints "joint_f" (m * b) ;;
  m <~ multiplier "finger" ;;
  b <~ button_pair "y" "a" ;;
  joints <~ create_joint_msg joints "hand_finger" (m * b) ;;
  m <~ multiplier "grip" ;;
  b <~ button_pair "b" "x" ;;
  joints <~ create_joint_msg joints "hand_grip" (m * b) ;;
  inr joints.

(** [pub.publish(joints[key])] *)
Definition publish_joint (joints : Dict JointState) (topic key : string)
    : T unit :=
  js <- lift (getitem joints key) ;;
  publish topic (JointStateMsg js).

Definition ra_control_callback : T unit :=
  joints <- lift joint_commands ;;
  publish_joint joints joint_a_pub "joint_a" ;;;
  publish_joint joints joint_b_pub "joint_b" ;;;
  publish_joint joints joint_c_pub "joint_c" ;;;
  publish_joint joints joint_d_pub "joint_d" ;;;
  publish_joint joints joint_e_pub "joint_e" ;;;
  publish_joint joints joint_f_pub "joint_f" ;;;
  publish_joint joints finger_pub "hand_finger" ;;;
  publish_joint joints grip_pub "hand_grip".

End Callback.

(** A [JointState] that carries one velocity and nothing else. *)
Definition command (v : Q) : JointState := mkJointState [] [] [v] [].

(** The keys the arm callback looks up: the joints in [ra_config], in the
    order of their publishers, with the topic of each; the stick axes and
    the pairs of buttons in [xbox_mappings]. *)
Definition joint_table : list (string * string) :=
  [(joint_a_pub, "joint_a"); (joint_b_pub, "joint_b");
   (joint_c_pub, "joint_c"); (joint_d_pub, "joint_d");
   (joint_e_pub, "joint_e"); (joint_f_pub, "joint_f");
   (finger_pub, "finger"); (grip_pub, "grip")]%string.

Definition stick_keys : list string :=
  ["left_js_x"; "left_js_y"; "right_js_y"; "right_js_x"]%string.

Definition button_pairs : list (string * string) :=
  [("right_trigger", "left_trigger"); ("right_bumper", "left_bumper");
   ("y", "a"); ("b", "x")]%string.

End Teleop.

(** ** A controller and an arm to run the callbacks on *)

Definition xbox : Teleop.Dict Z :=
  [("left_js_x", 0); ("left_js_y", 1); ("right_js_x", 2); ("right_js_y", 3);
   ("left_trigger", 0); ("right_trigger", 1); ("left_bumper", 2);
   ("right_bumper", 3); ("a", 4); ("b", 5); ("x", 6); ("y", 7)]%string%Z.

Definition xbox_without_b : Teleop.Dict Z :=
  filter (fun kv => negb (String.eqb (fst kv) "b")) xbox.

Definition arm : Teleop.ArmControl :=
  Teleop.mkArmControl xbox
    [("joint_a", [("multiplier", 1)]); ("joint_b", [("multiplier", 1 # 2)]);
     ("joint_c", [("multiplier", - (1))]); ("joint_d", [("multiplier", 2)]);
     ("joint_e", [("multiplier", 1)]); ("joint_f", [("multiplier", 1)]);
     ("finger", [("multiplier", 1)]); ("grip", [("multiplier", 3)])]%string%Q.

(** Left stick pushed right and fully down, right stick barely touched,
    right trigger and [b] pressed. *)
Definition joy_active : Teleop.Joy :=
  Teleop.mkJoy [1 # 2; - (1); 1 # 10; 0]%Q [0; 1; 0; 0; 0; 1; 0; 0]%Z.

(** Nothing touched but for a stick off centre inside the dead zone. *)
Definition joy_idle : Teleop.Joy :=
  Teleop.mkJoy [1 # 10; 0; - (1 # 20); 0]%Q [0; 0; 0; 0; 0; 0; 0; 0]%Z.

(** A rover with a track radius of 1/2 and wheels of radius 1/4, and one
    whose wheel radius was left at 0. *)
Definition rover : Teleop.Drive := Teleop.mkDrive [] [] (1 # 2) (1 # 4).
Definition rover_no_wheel : Teleop.Drive := Teleop.mkDrive [] [] (1 # 2) 0.

Definition forward_left : Teleop.Twist :=
  Teleop.mkTwist (Teleop.mkVector3 1 0 0) (Teleop.mkVector3 0 0 (1 # 4)).

(** ** Facts on float64: integers below 2^53 *)

Module F64Facts.
Import F64.

(** The number of binary digits of a positive number. *)
Lemma digits2_pos_bounds p :
  2 ^ (Zpos (digits2_pos p) - 1) <= Zpos p < 2 ^ Zpos (digits2_pos p).
Proof.
  induction p as [p IH|p IH|]; cbn [digits2_pos].
  - rewrite Pos2Z.inj_succ.
    replace (Z.succ (Zpos (digits2_pos p)) - 1) with (Z.succ (Zpos (digits2_pos p) - 1)) by lia.
    rewrite !Z.pow_succ_r by lia. lia.
  - rewrite Pos2Z.inj_succ.
    replace (Z.succ (Zpos (digits2_pos p)) - 1) with (Z.succ (Zpos (digits2_pos p) - 1)) by lia.
    rewrite !Z.pow_succ_r by lia. lia.
  - cbn. lia.
Qed.

Lemma digits2_pos_unique p d :
  2 ^ (d - 1) <= Zpos p < 2 ^ d -> Zpos (digits2_pos p) = d.
Proof.
  intros [Hlo Hhi]. pose proof (digits2_pos_bounds p) as [Hlo' Hhi'].
  assert (Hd : 0 < d).
  { destruct (Z_lt_le_dec 0 d) as [H|H]; [exact H|].
    assert (2 ^ d <= 1).
    { destruct (Z.eq_dec d 0) as [->|Hn]; [cbn; lia|].
      rewrite Z.pow_neg_r by lia. lia. }
    lia. }
  destruct (Z.lt_total (Zpos (digits2_pos p)) d) as [H|[H|H]]; [|exact H|].
  - assert (2 ^ Zpos (digits2_pos p) <= 2 ^ (d - 1))
      by (apply Z.pow_le_mono_r; lia). lia.
  - assert (2 ^ d <= 2 ^ (Zpos (digits2_pos p) - 1))
      by (apply Z.pow_le_mono_r; lia). lia.
Qed.

Lemma digits2_pos_shift p q k :
  0 <= k -> Zpos p = Zpos q * 2 ^ k ->
  Zpos (digits2_pos p) = Zpos (digits2_pos q) + k.
Proof.
  intros Hk Hp. apply digits2_pos_unique.
  pose proof (digits2_pos_bounds q) as [Hlo Hhi].
  replace (Zpos (digits2_pos q) + k - 1) with ((Zpos (digits2_pos q) - 1) + k) by lia.
  rewrite !Z.pow_add_r, Hp by lia.
  assert (0 < 2 ^ k) by (apply Z.pow_pos_nonneg; lia).
  nia.
Qed.

Lemma iter_xO p n : Zpos (Pos.iter xO p n) = Zpos p * 2 ^ Zpos n.
Proof.
  change (Pos.iter xO p n) with (shift_pos n p).
  rewrite shift_pos_correct. rewrite Z.pow_pos_fold. lia.
Qed.

Lemma shr_1_even m : 0 < m -> shr_1 (rec0 (2 * m)) = rec0 m.
Proof. destruct m as [|p|p]; try lia. reflexivity. Qed.

Lemma iter_shr_1 n : forall m,
  0 < m -> iter_pos shr_1 n (rec0 (m * 2 ^ Zpos n)) = rec0 m.
Proof.
  induction n as [n IH|n IH|]; intros m Hm; cbn [iter_pos].
  - replace (m * 2 ^ Zpos n~1) with (2 * ((m * 2 ^ Zpos n) * 2 ^ Zpos n)).
    + assert (0 < 2 ^ Zpos n) by (apply Z.pow_pos_nonneg; lia).
      rewrite shr_1_even by nia. rewrite IH by nia. now apply IH.
    + rewrite Pos2Z.inj_xI. rewrite Z.pow_add_r, Z.pow_mul_r by lia.
      change (2 ^ 2) with 4. change (2 ^ 1) with 2.
      replace (4 ^ Zpos n) with (2 ^ Zpos n * 2 ^ Zpos n); [ring|].
      rewrite <- Z.pow_add_r by lia. rewrite <- (Z.pow_mul_r 2 2) by lia.
      f_equal. lia.
  - replace (m * 2 ^ Zpos n~0) with ((m * 2 ^ Zpos n) * 2 ^ Zpos n).
    + assert (0 < 2 ^ Zpos n) by (apply Z.pow_pos_nonneg; lia).
      rewrite IH by nia. now apply IH.
    + rewrite Pos2Z.inj_xO. rewrite <- Z.mul_assoc, <- Z.pow_add_r by lia.
      do 2 f_equal. lia.
  - change (2 ^ 1) with 2. rewrite Z.mul_comm. now apply shr_1_even.
Qed.

Lemma fexp_small d : 1 <= d -> fexp prec emax d = d - 53.
Proof. intros Hd. unfold fexp, emin, prec, emax. lia. Qed.

(** Rounding a mantissa that is already in canonical form changes
    nothing. *)
Lemma binary_round_aux_canonical s m e :
  fexp prec emax (Zpos (digits2_pos m) + e) = e -> e <= 971 ->
  binary_round_aux prec emax s (Zpos m) e loc_Exact = S754_finite s m e.
Proof.
  intros Hc He. unfold binary_round_aux, shr_fexp.
  cbn [Zdigits2 shr_record_of_loc]. rewrite Hc, Z.sub_diag.
  cbn [shr shr_m loc_of_shr_record round_nearest_even Zdigits2 shr_record_of_loc].
  rewrite Hc, Z.sub_diag. cbn [shr shr_m].
  replace (e <=? emax - prec) with true
    by (symmetry; apply Z.leb_le; unfold emax, prec; lia).
  reflexivity.
Qed.

(** Rounding a mantissa with [n] zero bits too many shifts them out. *)
Lemma binary_round_aux_shift s p m e n :
  Zpos p = Zpos m * 2 ^ Zpos n ->
  fexp prec emax (Zpos (digits2_pos m) + (e + Zpos n)) = e + Zpos n ->
  e + Zpos n <= 971 ->
  binary_round_aux prec emax s (Zpos p) e loc_Exact
  = S754_finite s m (e + Zpos n).
Proof.
  intros Hp Hc He. unfold binary_round_aux, shr_fexp.
  cbn [Zdigits2 shr_record_of_loc].
  rewrite (digits2_pos_shift p m (Zpos n)) by (lia || exact Hp).
  replace (Zpos (digits2_pos m) + Zpos n + e)
    with (Zpos (digits2_pos m) + (e + Zpos n)) by lia.
  rewrite Hc. replace (e + Zpos n - e) with (Zpos n) by lia.
  cbn [shr]. rewrite Hp. change (Build_shr_record (Zpos m * 2 ^ Zpos n) false false)
    with (rec0 (Zpos m * 2 ^ Zpos n)).
  rewrite iter_shr_1 by lia.
  cbn [rec0 shr_m loc_of_shr_record round_nearest_even Zdigits2 shr_record_of_loc].
  rewrite Hc, Z.sub_diag. cbn [shr shr_m].
  replace (e + Zpos n <=? emax - prec) with true
    by (symmetry; apply Z.leb_le; unfold emax, prec; lia).
  reflexivity.
Qed.

(** The float64 of a positive integer below 2^53, given with [k] zero
    bits appended at exponent [-k]: the mantissa is the integer shifted to
    53 bits. *)
Lemma binary_round_int s p q k :
  Zpos (digits2_pos q) <= 53 -> 0 <= k -> Zpos p = Zpos q * 2 ^ k ->
  binary_round prec emax s p (- k)
  = S754_finite s (Z.to_pos (Zpos q * 2 ^ (53 - Zpos (digits2_pos q))))
      (Zpos (digits2_pos q) - 53).
Proof.
  intros Hq Hk Hp.
  set (dq := Zpos (digits2_pos q)) in *.
  assert (Hdq : 1 <= dq) by (unfold dq; lia).
  assert (Hpow : 0 < 2 ^ (53 - dq)) by (apply Z.pow_pos_nonneg; lia).
  set (mz := Z.to_pos (Zpos q * 2 ^ (53 - dq))).
  assert (Hmz : Zpos mz = Zpos q * 2 ^ (53 - dq))
    by (unfold mz; rewrite Z2Pos.id; nia).
  assert (Hdz : Zpos (digits2_pos mz) = 53).
  { rewrite (digits2_pos_shift mz q (53 - dq)) by (lia || exact Hmz).
    fold dq. lia. }
  assert (Hcan : fexp prec emax (Zpos (digits2_pos mz) + (dq - 53)) = dq - 53).
  { rewrite Hdz. replace (53 + (dq - 53)) with dq by lia. now apply fexp_small. }
  unfold binary_round.
  rewrite (digits2_pos_shift p q k Hk Hp). fold dq.
  replace (dq + k + - k) with dq by lia. rewrite fexp_small by exact Hdq.
  unfold shl_align.
  destruct (dq - 53 - - k) as [|n|n] eqn:E.
  - (* already aligned *)
    assert (p = mz).
    { apply Pos2Z.inj. rewrite Hp, Hmz. f_equal. f_equal. lia. }
    subst p. replace (- k) with (dq - 53) by lia.
    apply binary_round_aux_canonical; [exact Hcan|lia].
  - (* too many bits: shift right *)
    replace (dq - 53) with (- k + Zpos n) by lia.
    apply binary_round_aux_shift.
    + rewrite Hp, Hmz, <- Z.mul_assoc, <- Z.pow_add_r by lia.
      do 2 f_equal. lia.
    + replace (- k + Zpos n) with (dq - 53) by lia. exact Hcan.
    + lia.
  - (* too few bits: shift left *)
    assert (Pos.iter xO p n = mz).
    { apply Pos2Z.inj. rewrite iter_xO, Hp, Hmz, <- Z.mul_assoc, <- Z.pow_add_r by lia.
      do 2 f_equal. lia. }
    rewrite H. apply binary_round_aux_canonical; [exact Hcan|lia].
Qed.

Lemma digits_small q : Zpos q < 2 ^ 53 -> Zpos (digits2_pos q) <= 53.
Proof.
  intros Hq. pose proof (digits2_pos_bounds q) as [Hlo _].
  destruct (Z_le_gt_dec (Zpos (digits2_pos q)) 53) as [H|H]; [exact H|].
  assert (2 ^ 53 <= 2 ^ (Zpos (digits2_pos q) - 1))
    by (apply Z.pow_le_mono_r; lia).
  lia.
Qed.

(** The float64 of an integer below 2^53 in absolute value, in full. *)
Lemma of_Z_pos q :
  Zpos q < 2 ^ 53 ->
  of_Z (Zpos q)
  = S754_finite false (Z.to_pos (Zpos q * 2 ^ (53 - Zpos (digits2_pos q))))
      (Zpos (digits2_pos q) - 53).
Proof.
  intros Hq. unfold of_Z, binary_normalize.
  apply (binary_round_int false q q 0); [now apply digits_small|lia|].
  change (2 ^ 0) with 1. lia.
Qed.

Lemma of_Z_neg q :
  Zpos q < 2 ^ 53 ->
  of_Z (Zneg q)
  = S754_finite true (Z.to_pos (Zpos q * 2 ^ (53 - Zpos (digits2_pos q))))
      (Zpos (digits2_pos q) - 53).
Proof.
  intros Hq. unfold of_Z, binary_normalize.
  apply (binary_round_int true q q 0); [now apply digits_small|lia|].
  change (2 ^ 0) with 1. lia.
Qed.

Lemma shl_align_value m e e' :
  e' <= e -> Zpos (fst (shl_align m e e')) = Zpos m * 2 ^ (e - e').
Proof.
  intros H. unfold shl_align.
  destruct (e' - e) as [|n|n] eqn:E; cbn [fst]; try lia.
  - replace (e - e') with 0 by lia. change (2 ^ 0) with 1. lia.
  - rewrite iter_xO. do 2 f_equal. lia.
Qed.

(** The mantissa and exponent of an integer, whatever its sign. *)
Lemma of_Z_finite z :
  z <> 0 -> Z.abs z < 2 ^ 53 ->
  exists m e,
    of_Z z = S754_finite (z <? 0) m e /\
    e <= 0 /\ - 52 <= e /\ Zpos m = Z.abs z * 2 ^ (- e).
Proof.
  intros Hz Hb.
  assert (Hgen : forall q, Zpos q < 2 ^ 53 ->
            let d := Zpos (digits2_pos q) in
            d - 53 <= 0 /\ -52 <= d - 53 /\
            Zpos (Z.to_pos (Zpos q * 2 ^ (53 - d))) = Zpos q * 2 ^ (- (d - 53))).
  { intros q Hq d. pose proof (digits_small q Hq). fold d in H.
    assert (1 <= d) by (unfold d; lia).
    assert (0 < 2 ^ (53 - d)) by (apply Z.pow_pos_nonneg; lia).
    repeat split; try lia.
    rewrite Z2Pos.id by nia. do 2 f_equal. lia. }
  destruct z as [|q|q]; [congruence| |].
  - exists (Z.to_pos (Zpos q * 2 ^ (53 - Zpos (digits2_pos q)))),
      (Zpos (digits2_pos q) - 53).
    split; [apply of_Z_pos; exact Hb|]. apply (Hgen q Hb).
  - exists (Z.to_pos (Zpos q * 2 ^ (53 - Zpos (digits2_pos q)))),
      (Zpos (digits2_pos q) - 53).
    split; [apply of_Z_neg; exact Hb|]. apply (Hgen q Hb).
Qed.

Lemma cond_Zopp_sign z : cond_Zopp (z <? 0) (Z.abs z) = z.
Proof. unfold cond_Zopp. destruct (Z.ltb_spec z 0); lia. Qed.

(** Integers below 2^53 add without rounding. *)
Theorem add_of_Z a b :
  Z.abs a < 2 ^ 53 -> Z.abs b < 2 ^ 53 -> Z.abs (a + b) < 2 ^ 53 ->
  add (of_Z a) (of_Z b) = of_Z (a + b).
Proof.
  intros Ha Hb Hab.
  destruct (Z.eq_dec a 0) as [->|Hna].
  { cbn [Z.add]. destruct (Z.eq_dec b 0) as [->|Hnb]; [reflexivity|].
    destruct (of_Z_finite b Hnb Hb) as (m & e & -> & _). reflexivity. }
  destruct (Z.eq_dec b 0) as [->|Hnb].
  { rewrite Z.add_0_r.
    destruct (of_Z_finite a Hna Ha) as (m & e & -> & _). reflexivity. }
  destruct (of_Z_finite a Hna Ha) as (ma & ea & Ea & Hea & _ & Hma).
  destruct (of_Z_finite b Hnb Hb) as (mb & eb & Eb & Heb & _ & Hmb).
  rewrite Ea, Eb. unfold add. cbn [SFadd].
  set (ez := Z.min ea eb).
  assert (Hez : ez <= 0) by (unfold ez; lia).
  rewrite !shl_align_value by (unfold ez; lia).
  assert (Hsum : cond_Zopp (a <? 0) (Zpos ma * 2 ^ (ea - ez))
                 + cond_Zopp (b <? 0) (Zpos mb * 2 ^ (eb - ez))
                 = (a + b) * 2 ^ (- ez)).
  { rewrite Hma, Hmb, <- !Z.mul_assoc, <- !Z.pow_add_r by (unfold ez; lia).
    replace (- ea + (ea - ez)) with (- ez) by lia.
    replace (- eb + (eb - ez)) with (- ez) by lia.
    rewrite <- (cond_Zopp_sign a) at 3. rewrite <- (cond_Zopp_sign b) at 3.
    unfold cond_Zopp. destruct (a <? 0), (b <? 0); ring. }
  rewrite Hsum.
  assert (Hk : exists k, 0 <= k /\ ez = - k) by (exists (- ez); lia).
  destruct Hk as (k & Hk & Hezk). clearbody ez. subst ez.
  rewrite Z.opp_involutive.
  assert (Hp : 0 < 2 ^ k) by (apply Z.pow_pos_nonneg; lia).
  destruct (a + b) as [|q|q] eqn:Eab.
  - reflexivity.
  - unfold of_Z. cbn [binary_normalize].
    assert (Hq : Zpos q < 2 ^ 53) by lia.
    destruct (Zpos q * 2 ^ k) as [|p|p] eqn:Ep; try nia.
    cbn [binary_normalize].
    rewrite (binary_round_int false p q k) by (try apply digits_small; lia).
    symmetry. apply (binary_round_int false q q 0); [now apply digits_small|lia|].
    change (2 ^ 0) with 1. lia.
  - unfold of_Z. cbn [binary_normalize].
    assert (Hq : Zpos q < 2 ^ 53) by lia.
    destruct (Zneg q * 2 ^ k) as [|p|p] eqn:Ep; try nia.
    cbn [binary_normalize].
    rewrite (binary_round_int true p q k) by (try apply digits_small; lia).
    symmetry. apply (binary_round_int true q q 0); [now apply digits_small|lia|].
    change (2 ^ 0) with 1. lia.
Qed.

(** An integer below 2^53 is read back from its float64. *)
Lemma trunc_of_Z z : Z.abs z < 2 ^ 53 -> trunc (of_Z z) = z.
Proof.
  intros Hb. destruct (Z.eq_dec z 0) as [->|Hz]; [reflexivity|].
  destruct (of_Z_finite z Hz Hb) as (m & e & Hf & He & _ & Hm).
  rewrite Hf. cbn [trunc].
  assert (Hv : match e with
               | Zneg n => Zpos m / 2 ^ Zpos n
               | _ => Zpos m * 2 ^ e
               end = Z.abs z).
  { destruct e as [|n|n]; try lia.
    rewrite Hm. change (- Zneg n) with (Zpos n).
    apply Z.div_mul. apply Z.pow_nonzero; lia. }
  rewrite Hv. apply cond_Zopp_sign.
Qed.

Lemma of_Z_inj a b :
  Z.abs a < 2 ^ 53 -> Z.abs b < 2 ^ 53 -> of_Z a = of_Z b -> a = b.
Proof.
  intros Ha Hb H. rewrite <- (trunc_of_Z a Ha), <- (trunc_of_Z b Hb).
  now rewrite H.
Qed.

End F64Facts.


(** ** Facts on the array operations *)

Module NpFacts.
Import Np.

Lemma length_tile {A} (a : list A) n :
  length (tile a n) = (n * length a)%nat.
Proof.
  unfold tile. induction n as [|n IH]; simpl; [reflexivity|].
  rewrite length_app, IH. reflexivity.
Qed.

Lemma nth_error_tile {A} (a : list A) n k :
  (k < n * length a)%nat ->
  nth_error (tile a n) k = nth_error a (k mod length a).
Proof.
  unfold tile. revert k. induction n as [|n IH]; intros k Hk; simpl in *; [lia|].
  assert (Hpos : (length a <> 0)%nat) by lia.
  destruct (Nat.lt_ge_cases k (length a)) as [Hlt|Hge].
  - rewrite nth_error_app1 by exact Hlt. now rewrite Nat.mod_small.
  - rewrite nth_error_app2 by exact Hge. rewrite IH by lia.
    f_equal.
    replace k with ((k - length a) + 1 * length a)%nat at 2 by lia.
    now rewrite Nat.Div0.mod_add.
Qed.

Lemma length_arange start stop :
  length (arange start stop) = Z.to_nat (stop - start).
Proof. unfold arange. now rewrite length_map, length_seq. Qed.

Lemma nth_error_arange start stop i :
  (i < Z.to_nat (stop - start))%nat ->
  nth_error (arange start stop) i = Some (start + Z.of_nat i).
Proof.
  intros Hi. unfold arange.
  rewrite nth_error_map, nth_error_seq.
  apply Nat.ltb_lt in Hi. now rewrite Hi.
Qed.

Lemma length_repeat_each {A} (a : list A) n :
  length (repeat_each a n) = (length a * n)%nat.
Proof.
  unfold repeat_each. induction a as [|x a IH]; simpl; [reflexivity|].
  rewrite length_app, repeat_length, IH. reflexivity.
Qed.

Lemma nth_error_repeat_each {A} (a : list A) n k :
  (k < length a * n)%nat ->
  nth_error (repeat_each a n) k = nth_error a (k / n).
Proof.
  unfold repeat_each. revert k. induction a as [|x a IH]; intros k Hk; simpl in *; [lia|].
  assert (Hn : (n <> 0)%nat) by lia.
  destruct (Nat.lt_ge_cases k n) as [Hlt|Hge].
  - rewrite nth_error_app1 by now rewrite repeat_length.
    rewrite Nat.div_small by exact Hlt. simpl.
    now apply nth_error_repeat.
  - rewrite nth_error_app2 by now rewrite repeat_length.
    rewrite repeat_length, IH by lia.
    replace k with ((k - n) + 1 * n)%nat at 2 by lia.
    rewrite Nat.div_add by exact Hn.
    now rewrite Nat.add_1_r.
Qed.

Lemma length_mul_col deltas coefs :
  length (mul_col deltas coefs) = Nat.min (length deltas) (length coefs).
Proof. unfold mul_col. now rewrite length_map, length_combine. Qed.

Lemma nth_error_mul_col deltas coefs k r c :
  nth_error deltas k = Some r -> nth_error coefs k = Some c ->
  nth_error (mul_col deltas coefs) k = Some (scale c r).
Proof.
  unfold mul_col. revert coefs k.
  induction deltas as [|r0 deltas IH]; intros [|c0 coefs] [|k] Hr Hc;
    simpl in *; try discriminate.
  - now inversion Hr; inversion Hc.
  - now apply IH.
Qed.

Lemma length_cumsum_from acc a : length (cumsum_from acc a) = length a.
Proof.
  revert acc. induction a as [|r a IH]; intros acc; simpl; [reflexivity|].
  now rewrite IH.
Qed.

Lemma length_cumsum a : length (cumsum a) = length a.
Proof. destruct a; simpl; [reflexivity|]. now rewrite length_cumsum_from. Qed.

(** Each row of a running sum is the float64 sum of the previous one and
    of the row added. *)
Lemma cumsum_step c a k p r :
  nth_error (cumsum (vstack c a)) k = Some p ->
  nth_error a k = Some r ->
  nth_error (cumsum (vstack c a)) (S k) = Some (add2 p (astype_float r)).
Proof.
  unfold vstack. cbn [cumsum]. revert c k.
  induction a as [|r0 a IH]; intros c k Hp Hr.
  - destruct k; discriminate.
  - destruct k as [|k]; cbn [map cumsum_from nth_error] in *.
    + now inversion Hp; inversion Hr.
    + now apply IH.
Qed.

Lemma wrap64_small z : - 2 ^ 63 <= z < 2 ^ 63 -> wrap64 z = z.
Proof.
  intros Hz. unfold wrap64.
  rewrite Z.mod_small by (change (2 ^ 64) with (2 ^ 63 + 2 ^ 63); lia). lia.
Qed.

Lemma length_hstack a col :
  length (hstack a col) = Nat.min (length a) (length col).
Proof. unfold hstack. now rewrite length_map, length_combine. Qed.

Lemma nth_error_hstack_zeros a k :
  nth_error (hstack a (zeros (length a))) k
  = option_map (fun r => (fst r, snd r, F64.zero)) (nth_error a k).
Proof.
  unfold hstack, zeros. revert k.
  induction a as [|r a IH]; intros [|k]; simpl; try reflexivity.
  apply IH.
Qed.

End NpFacts.

(** ** The spiral in exact arithmetic: legs and closed form *)

Section ExactFacts.
Import Np NpFacts.

Lemma length_dist_coefs num_turns :
  length (repeat_each (arange 1 (Z.of_nat num_turns * 2 + 1)) 2)
  = (4 * num_turns)%nat.
Proof. rewrite length_repeat_each, length_arange. lia. Qed.

Lemma nth_error_dist_coefs num_turns k :
  (k < 4 * num_turns)%nat ->
  nth_error (repeat_each (arange 1 (Z.of_nat num_turns * 2 + 1)) 2) k
  = Some (Z.of_nat (k / 2) + 1).
Proof.
  intros Hk.
  rewrite nth_error_repeat_each by (rewrite length_arange; lia).
  assert (Hdiv : (k / 2 < 2 * num_turns)%nat)
    by (apply Nat.Div0.div_lt_upper_bound; lia).
  rewrite nth_error_arange by lia. f_equal. lia.
Qed.

Lemma nth_error_dirs k : (k < 4)%nat -> nth_error dirs k = Some (dir k).
Proof.
  intros Hk. unfold dir. apply nth_error_nth'. exact Hk.
Qed.

Lemma nth_error_tile_dirs num_turns k :
  (k < 4 * num_turns)%nat ->
  nth_error (tile dirs num_turns) k = Some (dir (k mod 4)).
Proof.
  intros Hk. rewrite nth_error_tile by (simpl; lia). simpl length.
  apply nth_error_dirs. apply Nat.mod_upper_bound. lia.
Qed.

Lemma length_exact_mul_col ds cs :
  length (Exact.mul_col ds cs) = Nat.min (length ds) (length cs).
Proof. unfold Exact.mul_col. now rewrite length_map, length_combine. Qed.

Lemma nth_error_exact_mul_col ds cs k r c :
  nth_error ds k = Some r -> nth_error cs k = Some c ->
  nth_error (Exact.mul_col ds cs) k = Some (Exact.scale c r).
Proof.
  unfold Exact.mul_col. revert cs k.
  induction ds as [|d ds IH]; intros [|c0 cs] [|k]; simpl; try discriminate.
  - now intros [= ->] [= ->].
  - apply IH.
Qed.

Lemma length_exact_deltas num_turns distance :
  length (Exact.deltas num_turns distance) = (4 * num_turns)%nat.
Proof.
  unfold Exact.deltas, Exact.scalar_mul.
  rewrite length_exact_mul_col, length_tile, length_map, length_dist_coefs.
  simpl. lia.
Qed.

Lemma nth_error_exact_deltas num_turns distance k :
  (k < 4 * num_turns)%nat ->
  nth_error (Exact.deltas num_turns distance) k
  = Some (Exact.scale (distance * (Z.of_nat (k / 2) + 1)) (dir (k mod 4))).
Proof.
  intros Hk. unfold Exact.deltas.
  apply nth_error_exact_mul_col.
  - now apply nth_error_tile_dirs.
  - unfold Exact.scalar_mul. rewrite nth_error_map.
    now rewrite nth_error_dist_coefs.
Qed.

Lemma length_exact_cumsum_from a : forall acc,
  length (Exact.cumsum_from acc a) = length a.
Proof. induction a as [|r a IH]; intros acc; simpl; [reflexivity|]. now rewrite IH. Qed.

Lemma length_exact_coordinates center num_turns distance :
  length (Exact.coordinates center num_turns distance) = (4 * num_turns + 1)%nat.
Proof.
  unfold Exact.coordinates. cbn [length].
  rewrite length_exact_cumsum_from, length_exact_deltas. lia.
Qed.

Lemma exact_cumsum_step a : forall c k p r,
  nth_error (c :: Exact.cumsum_from c a) k = Some p ->
  nth_error a k = Some r ->
  nth_error (c :: Exact.cumsum_from c a) (S k) = Some (Exact.add2 p r).
Proof.
  induction a as [|r0 a IH]; intros c k p r Hp Hr.
  - destruct k; discriminate.
  - destruct k as [|k]; cbn [Exact.cumsum_from nth_error] in *.
    + now inversion Hp; inversion Hr.
    + now apply IH.
Qed.

Lemma split4 k : exists q r, (r < 4)%nat /\ k = (4 * q + r)%nat.
Proof.
  exists (k / 4)%nat, (k mod 4)%nat. split.
  - apply Nat.mod_upper_bound. lia.
  - apply Nat.div_mod_eq.
Qed.

Lemma div4 q r : (r < 4)%nat -> ((4 * q + r) / 4 = q)%nat.
Proof. intros Hr. symmetry. apply (Nat.div_unique _ 4 q r); lia. Qed.

Lemma mod4 q r : (r < 4)%nat -> ((4 * q + r) mod 4 = r)%nat.
Proof. intros Hr. symmetry. apply (Nat.mod_unique _ 4 q r); lia. Qed.

Lemma div2 q r : (r < 4)%nat -> ((4 * q + r) / 2 = 2 * q + r / 2)%nat.
Proof.
  intros Hr. symmetry.
  apply (Nat.div_unique _ 2 _ (r mod 2)).
  - apply Nat.mod_upper_bound. lia.
  - pose proof (Nat.div_mod_eq r 2). lia.
Qed.

Lemma spiral_offset_split q r :
  (r < 4)%nat -> spiral_offset (4 * q + r) = leg (Z.of_nat q) r.
Proof. intros Hr. unfold spiral_offset. now rewrite div4, mod4. Qed.

Lemma spiral_offset_0 : spiral_offset 0 = (0, 0).
Proof. reflexivity. Qed.

Ltac leg_step :=
  rewrite spiral_offset_split by lia;
  unfold leg, Exact.add2, Exact.scale, dir; cbn [nth dirs fst snd];
  f_equal; lia.

(** One leg further along the spiral. *)
Lemma spiral_offset_succ k :
  spiral_offset (S k)
  = Exact.add2 (spiral_offset k)
      (Exact.scale (Z.of_nat (k / 2) + 1) (dir (k mod 4))).
Proof.
  destruct (split4 k) as (q & r & Hr & ->).
  rewrite div2, mod4, (spiral_offset_split q r) by exact Hr.
  destruct r as [|[|[|[|r]]]]; try lia.
  - change (0 / 2)%nat with 0%nat.
    replace (S (4 * q + 0)) with (4 * q + 1)%nat by lia. leg_step.
  - change (1 / 2)%nat with 0%nat.
    replace (S (4 * q + 1)) with (4 * q + 2)%nat by lia. leg_step.
  - change (2 / 2)%nat with 1%nat.
    replace (S (4 * q + 2)) with (4 * q + 3)%nat by lia. leg_step.
  - change (3 / 2)%nat with 1%nat.
    replace (S (4 * q + 3)) with (4 * S q + 0)%nat by lia. leg_step.
Qed.

Lemma spiral_offset_inj i j : spiral_offset i = spiral_offset j -> i = j.
Proof.
  destruct (split4 i) as (qi & ri & Hri & ->).
  destruct (split4 j) as (qj & rj & Hrj & ->).
  rewrite !spiral_offset_split by assumption.
  destruct ri as [|[|[|[|ri]]]]; try lia;
    destruct rj as [|[|[|[|rj]]]]; try lia;
    unfold leg; intros H; injection H; lia.
Qed.

(** The ring a point lies on: the half side, in steps, of its square. *)
Lemma ring_of_offset q r :
  (r < 4)%nat ->
  Z.max (Z.abs (fst (leg (Z.of_nat q) r))) (Z.abs (snd (leg (Z.of_nat q) r)))
  = Z.of_nat q + (if Nat.eqb r 0 then 0 else 1).
Proof.
  intros Hr. destruct r as [|[|[|[|r]]]]; try lia; unfold leg; cbn [fst snd Nat.eqb]; lia.
Qed.

Lemma ring_monotone i j :
  (i <= j)%nat ->
  Z.max (Z.abs (fst (spiral_offset i))) (Z.abs (snd (spiral_offset i)))
  <= Z.max (Z.abs (fst (spiral_offset j))) (Z.abs (snd (spiral_offset j))).
Proof.
  destruct (split4 i) as (qi & ri & Hri & ->).
  destruct (split4 j) as (qj & rj & Hrj & ->).
  intros Hij. rewrite !spiral_offset_split, !ring_of_offset by assumption.
  destruct (Nat.eqb_spec ri 0), (Nat.eqb_spec rj 0); lia.
Qed.

Lemma ring_bound num_turns k :
  (k <= 4 * num_turns)%nat ->
  Z.max (Z.abs (fst (spiral_offset k))) (Z.abs (snd (spiral_offset k)))
  <= Z.of_nat num_turns.
Proof.
  intros Hk.
  etransitivity; [apply (ring_monotone k (4 * num_turns + 0)); lia|].
  rewrite spiral_offset_split, ring_of_offset by lia. cbn [Nat.eqb]. lia.
Qed.

(** Closed form of the points in exact arithmetic. *)
Lemma nth_error_exact_coordinates center num_turns distance k :
  (k <= 4 * num_turns)%nat ->
  nth_error (Exact.coordinates center num_turns distance) k
  = Some (fst center + fst (spiral_offset k) * distance,
          snd center + snd (spiral_offset k) * distance).
Proof.
  induction k as [|k IH]; intros Hk.
  - unfold Exact.coordinates. cbn [nth_error]. rewrite spiral_offset_0.
    destruct center as [cx cy]. cbn [fst snd]. do 2 f_equal; lia.
  - unfold Exact.coordinates in *.
    rewrite (exact_cumsum_step _ _ _ _ _ (IH ltac:(lia))
               (nth_error_exact_deltas num_turns distance k ltac:(lia))).
    f_equal. rewrite spiral_offset_succ.
    unfold Exact.add2, Exact.scale. cbn [fst snd]. f_equal; ring.
Qed.

End ExactFacts.

(** ** When [spiral_traj] computes the exact spiral *)

Section Refinement.
Import Np NpFacts F64Facts.

Lemma Some_eq {A : Type} (x y : A) : Some x = Some y -> x = y.
Proof. congruence. Qed.

Lemma axis_unit_dir k : (k < 4)%nat -> axis_unit (dir k).
Proof.
  intros Hk. destruct k as [|[|[|[|k]]]]; try lia; reflexivity.
Qed.

Lemma axis_unit_tile n : Forall axis_unit (tile dirs n).
Proof.
  unfold tile. induction n as [|n IH]; cbn [repeat concat]; [constructor|].
  apply Forall_app. split; [|exact IH].
  repeat constructor.
Qed.

Lemma dist_coefs_range num_turns :
  Forall (fun c => 1 <= c <= 2 * Z.of_nat num_turns)
    (repeat_each (arange 1 (Z.of_nat num_turns * 2 + 1)) 2).
Proof.
  apply Forall_forall. intros c Hin.
  apply In_nth_error in Hin. destruct Hin as [k Hk].
  assert (Hlt : (k < 4 * num_turns)%nat).
  { rewrite <- (length_dist_coefs num_turns).
    apply nth_error_Some. rewrite Hk. discriminate. }
  rewrite nth_error_dist_coefs in Hk by exact Hlt.
  apply Some_eq in Hk. subst c.
  assert (Hdiv : (k / 2 < 2 * num_turns)%nat)
    by (apply Nat.Div0.div_lt_upper_bound; lia).
  lia.
Qed.

(** No product wraps around when it fits int64. *)
Lemma scalar_mul_exact d cs :
  Forall (fun c => Z.abs (d * c) < 2 ^ 63) cs ->
  scalar_mul d cs = Exact.scalar_mul d cs.
Proof.
  unfold scalar_mul, Exact.scalar_mul.
  induction 1 as [|c cs Hc _ IH]; cbn [map]; [reflexivity|].
  rewrite IH, wrap64_small by lia. reflexivity.
Qed.

Lemma mul_col_exact ds : forall cs,
  Forall axis_unit ds -> Forall (fun c => Z.abs c < 2 ^ 63) cs ->
  mul_col ds cs = Exact.mul_col ds cs.
Proof.
  unfold mul_col, Exact.mul_col.
  induction ds as [|u ds IH]; intros [|c cs] Hu Hc; try reflexivity.
  inversion Hu as [|? ? Hu1 Hu2]; subst. inversion Hc as [|? ? Hc1 Hc2]; subst.
  cbn [combine map fst snd]. rewrite (IH cs Hu2 Hc2). f_equal.
  unfold scale, Exact.scale, axis_unit in *.
  assert (Hx : Z.abs (fst u * c) <= Z.abs c) by (rewrite Z.abs_mul; nia).
  assert (Hy : Z.abs (snd u * c) <= Z.abs c) by (rewrite Z.abs_mul; nia).
  rewrite !wrap64_small by lia. reflexivity.
Qed.

Lemma spiral_deltas_exact num_turns distance :
  2 * Z.of_nat num_turns * Z.abs distance < 2 ^ 63 ->
  spiral_deltas num_turns distance = Exact.deltas num_turns distance.
Proof.
  intros Hb. unfold spiral_deltas, Exact.deltas.
  assert (Hc : Forall (fun c => Z.abs (distance * c) < 2 ^ 63)
                 (repeat_each (arange 1 (Z.of_nat num_turns * 2 + 1)) 2)).
  { eapply Forall_impl; [|apply dist_coefs_range].
    intros c Hc. cbv beta in Hc. rewrite Z.abs_mul. nia. }
  rewrite (scalar_mul_exact _ _ Hc).
  apply mul_col_exact; [apply axis_unit_tile|].
  unfold Exact.scalar_mul. apply Forall_map. exact Hc.
Qed.

Lemma length_spiral_deltas num_turns distance :
  length (spiral_deltas num_turns distance) = (4 * num_turns)%nat.
Proof.
  unfold spiral_deltas, scalar_mul.
  rewrite length_mul_col, length_tile, length_map, length_dist_coefs.
  simpl. lia.
Qed.

Lemma length_spiral_coordinates center num_turns distance :
  length (spiral_coordinates center num_turns distance)
  = (4 * num_turns + 1)%nat.
Proof.
  unfold spiral_coordinates. rewrite length_cumsum. unfold vstack.
  cbn [length]. rewrite length_map, length_spiral_deltas. lia.
Qed.

Lemma length_spiral_traj center num_turns distance fid :
  length (coordinates (spiral_traj center num_turns distance fid))
  = (4 * num_turns + 1)%nat.
Proof.
  unfold spiral_traj. cbn [coordinates].
  rewrite length_hstack. unfold zeros. rewrite repeat_length, Nat.min_id.
  apply length_spiral_coordinates.
Qed.

Lemma spiral_traj_z center num_turns distance fid k p :
  nth_error (coordinates (spiral_traj center num_turns distance fid)) k = Some p ->
  snd p = F64.zero.
Proof.
  unfold spiral_traj. cbn [coordinates]. rewrite nth_error_hstack_zeros.
  destruct (nth_error _ k); simpl; [|discriminate].
  intros H. injection H as <-. reflexivity.
Qed.

Lemma hstack_zeros a :
  hstack a (zeros (length a)) = map (fun r => (fst r, snd r, F64.zero)) a.
Proof.
  unfold hstack, zeros.
  induction a as [|r a IH]; [reflexivity|].
  cbn [length repeat combine map fst snd]. now rewrite IH.
Qed.

(** A running sum of integers below 2^53 is not rounded. *)
Lemma cumsum_from_exact ds : forall acc,
  Exact.representable acc ->
  Forall Exact.representable ds ->
  Forall Exact.representable (Exact.cumsum_from acc ds) ->
  cumsum_from (astype_float acc) (map astype_float ds)
  = map astype_float (Exact.cumsum_from acc ds).
Proof.
  induction ds as [|d ds IH]; intros acc Ha Hd Hs; [reflexivity|].
  inversion Hd as [|? ? Hd1 Hd2]; subst.
  cbn [Exact.cumsum_from] in Hs. inversion Hs as [|? ? Hs1 Hs2]; subst.
  cbn [map cumsum_from Exact.cumsum_from].
  assert (Hadd : add2 (astype_float acc) (astype_float d)
                 = astype_float (Exact.add2 acc d)).
  { unfold add2, astype_float, Exact.add2, Exact.representable in *.
    cbn [fst snd] in *.
    f_equal; apply add_of_Z; lia. }
  rewrite Hadd. f_equal. now apply IH.
Qed.

Lemma exact_deltas_representable num_turns distance :
  2 * Z.of_nat num_turns * Z.abs distance < 2 ^ 53 ->
  Forall Exact.representable (Exact.deltas num_turns distance).
Proof.
  intros Hb. apply Forall_forall. intros r Hin.
  apply In_nth_error in Hin. destruct Hin as [k Hk].
  assert (Hlt : (k < 4 * num_turns)%nat).
  { rewrite <- (length_exact_deltas num_turns distance).
    apply nth_error_Some. rewrite Hk. discriminate. }
  rewrite nth_error_exact_deltas in Hk by exact Hlt.
  apply Some_eq in Hk. subst r.
  assert (Hdiv : (k / 2 < 2 * num_turns)%nat)
    by (apply Nat.Div0.div_lt_upper_bound; lia).
  pose proof (axis_unit_dir (k mod 4) ltac:(apply Nat.mod_upper_bound; lia)) as Hu.
  unfold Exact.representable, Exact.scale, axis_unit in *. cbn [fst snd].
  rewrite !Z.abs_mul.
  assert (Hm : Z.abs distance * Z.abs (Z.of_nat (k / 2) + 1)
               <= Z.abs distance * (2 * Z.of_nat num_turns))
    by (apply Z.mul_le_mono_nonneg_l; lia).
  set (m := Z.abs distance * Z.abs (Z.of_nat (k / 2) + 1)) in *.
  assert (H0 : 0 <= m) by (subst m; apply Z.mul_nonneg_nonneg; lia).
  split; nia.
Qed.

Lemma exact_coordinates_representable center num_turns distance :
  exact_range center num_turns distance ->
  Forall Exact.representable (Exact.coordinates center num_turns distance).
Proof.
  intros [Hx Hy]. apply Forall_forall. intros r Hin.
  apply In_nth_error in Hin. destruct Hin as [k Hk].
  assert (Hlt : (k < 4 * num_turns + 1)%nat).
  { rewrite <- (length_exact_coordinates center num_turns distance).
    apply nth_error_Some. rewrite Hk. discriminate. }
  rewrite nth_error_exact_coordinates in Hk by lia.
  apply Some_eq in Hk. subst r.
  pose proof (ring_bound num_turns k ltac:(lia)) as Hr.
  unfold Exact.representable. cbn [fst snd].
  assert (Hox : Z.abs (fst (spiral_offset k) * distance)
                <= Z.of_nat num_turns * Z.abs distance)
    by (rewrite Z.abs_mul; nia).
  assert (Hoy : Z.abs (snd (spiral_offset k) * distance)
                <= Z.of_nat num_turns * Z.abs distance)
    by (rewrite Z.abs_mul; nia).
  split; lia.
Qed.

(** On [exact_range] the rows computed in int64 and float64 are the float64
    of the rows of the exact spiral. *)
Lemma spiral_coordinates_exact center num_turns distance :
  exact_range center num_turns distance ->
  spiral_coordinates (astype_float center) num_turns distance
  = map astype_float (Exact.coordinates center num_turns distance).
Proof.
  intros Hr.
  pose proof (exact_coordinates_representable _ _ _ Hr) as Hc.
  destruct Hr as [Hx Hy].
  unfold spiral_coordinates, vstack, Exact.coordinates in *. cbn [cumsum map].
  rewrite spiral_deltas_exact by lia.
  inversion Hc as [|? ? Hc1 Hc2]; subst.
  f_equal. apply cumsum_from_exact; [exact Hc1| |exact Hc2].
  apply exact_deltas_representable. lia.
Qed.

Lemma spiral_traj_exact center num_turns distance fid :
  exact_range center num_turns distance ->
  coordinates (spiral_traj (astype_float center) num_turns distance fid)
  = map Exact.waypoint (Exact.coordinates center num_turns distance).
Proof.
  intros Hr. unfold spiral_traj. cbn [coordinates].
  rewrite hstack_zeros, spiral_coordinates_exact by exact Hr.
  rewrite map_map. reflexivity.
Qed.

(** Closed form of waypoint [k] on [exact_range]. *)
Lemma nth_error_spiral_traj center num_turns distance fid k :
  exact_range center num_turns distance ->
  (k <= 4 * num_turns)%nat ->
  nth_error (coordinates (spiral_traj (astype_float center) num_turns distance fid)) k
  = Some (point (fst center + fst (spiral_offset k) * distance)
                (snd center + snd (spiral_offset k) * distance) 0).
Proof.
  intros Hr Hk. rewrite spiral_traj_exact by exact Hr.
  rewrite nth_error_map, nth_error_exact_coordinates by exact Hk.
  reflexivity.
Qed.

Lemma nth_error_spiral_traj_inv center num_turns distance fid k p :
  exact_range center num_turns distance ->
  nth_error (coordinates (spiral_traj (astype_float center) num_turns distance fid)) k
  = Some p ->
  (k <= 4 * num_turns)%nat /\
  p = point (fst center + fst (spiral_offset k) * distance)
            (snd center + snd (spiral_offset k) * distance) 0.
Proof.
  intros Hr Hp.
  assert (Hk : (k < 4 * num_turns + 1)%nat).
  { rewrite <- (length_spiral_traj (astype_float center) num_turns distance fid).
    apply nth_error_Some. rewrite Hp. discriminate. }
  split; [lia|].
  rewrite nth_error_spiral_traj in Hp by (assumption || lia). congruence.
Qed.

(** The integers of the waypoints are below 2^53 on [exact_range]. *)
Lemma spiral_point_representable center num_turns distance k :
  exact_range center num_turns distance ->
  (k <= 4 * num_turns)%nat ->
  Z.abs (fst center + fst (spiral_offset k) * distance) < 2 ^ 53 /\
  Z.abs (snd center + snd (spiral_offset k) * distance) < 2 ^ 53.
Proof.
  intros Hr Hk.
  pose proof (exact_coordinates_representable _ _ _ Hr) as Hc.
  rewrite Forall_forall in Hc.
  apply (Hc (fst center + fst (spiral_offset k) * distance,
             snd center + snd (spiral_offset k) * distance)).
  eapply nth_error_In. now apply nth_error_exact_coordinates.
Qed.

(** One step of the running sum, for any float64 centre, when no product
    wraps around. *)
Lemma spiral_traj_step center num_turns distance fid k x y z :
  2 * Z.of_nat num_turns * Z.abs distance < 2 ^ 63 ->
  (k < 4 * num_turns)%nat ->
  nth_error (coordinates (spiral_traj center num_turns distance fid)) k
  = Some (x, y, z) ->
  nth_error (coordinates (spiral_traj center num_turns distance fid)) (S k)
  = Some (F64.add x (F64.of_Z (fst (dir (k mod 4)) * (distance * (Z.of_nat (k / 2) + 1)))),
          F64.add y (F64.of_Z (snd (dir (k mod 4)) * (distance * (Z.of_nat (k / 2) + 1)))),
          F64.zero).
Proof.
  intros Hb Hk. unfold spiral_traj. cbn [coordinates].
  rewrite !nth_error_hstack_zeros. unfold spiral_coordinates.
  destruct (nth_error (cumsum (vstack center (spiral_deltas num_turns distance))) k)
    as [p|] eqn:Hp; [|discriminate].
  cbn [option_map]. intros H. injection H as <- <- _.
  pose proof (nth_error_exact_deltas num_turns distance k Hk) as Hd.
  rewrite <- spiral_deltas_exact in Hd by exact Hb.
  rewrite (cumsum_step _ _ _ _ _ Hp Hd). reflexivity.
Qed.

End Refinement.

(** ** The generated spiral *)

Section Spiral.
Import Np NpFacts F64Facts.

Variable num_turns : nat.
Variable distance : Z.
Variable fid : Z.

(** C1.  Whatever the centre, the number of turns T and the step S (so in
    particular for T >= 1 and S > 0), the trajectory returned by
    [spiral_traj] has exactly 4 * T + 1 points, its point 0 is the centre,
    and the z coordinate of every point is 0. *)
Theorem spiral_traj_shape (center : Row2f) :
  let t := spiral_traj center num_turns distance fid in
  length (coordinates t) = (4 * num_turns + 1)%nat /\
  nth_error (coordinates t) 0 = Some (fst center, snd center, F64.zero) /\
  Forall (fun p => snd p = F64.zero) (coordinates t).
Proof.
  cbv zeta. split; [apply length_spiral_traj|]. split.
  - unfold spiral_traj. cbn [coordinates].
    rewrite nth_error_hstack_zeros. reflexivity.
  - apply Forall_forall. intros p Hin.
    apply In_nth_error in Hin. destruct Hin as [k Hk].
    exact (spiral_traj_z _ _ _ _ k p Hk).
Qed.

Variable center : Row2.

Hypothesis Hexact : exact_range center num_turns distance.



Lemma waypoint_inj x y x' y' :
  Z.abs x < 2 ^ 53 -> Z.abs y < 2 ^ 53 ->
  Z.abs x' < 2 ^ 53 -> Z.abs y' < 2 ^ 53 ->
  point x y 0 = point x' y' 0 -> x = x' /\ y = y'.
Proof.
  intros Hx Hy Hx' Hy' H. unfold point in H. injection H as H1 H2.
  split; now apply of_Z_inj.
Qed.

Lemma spiral_traj_NoDup :
  distance <> 0 ->
  NoDup (coordinates (spiral_traj (astype_float center) num_turns distance fid)).
Proof.
  intros Hd. apply NoDup_nth_error. intros i j Hi Heq.
  rewrite length_spiral_traj in Hi.
  rewrite nth_error_spiral_traj in Heq by (assumption || lia).
  destruct (Nat.le_gt_cases j (4 * num_turns)) as [Hj|Hj].
  - rewrite nth_error_spiral_traj in Heq by assumption.
    apply spiral_offset_inj.
    destruct (spiral_point_representable center num_turns distance i Hexact
                ltac:(lia)) as [Hxi Hyi].
    destruct (spiral_point_representable center num_turns distance j Hexact Hj)
      as [Hxj Hyj].
    apply Some_eq in Heq. apply waypoint_inj in Heq; try assumption.
    destruct Heq as [Hx Hy].
    destruct (spiral_offset i) as [xi yi], (spiral_offset j) as [xj yj].
    cbn [fst snd] in Hx, Hy.
    f_equal; nia.
  - rewrite (proj2 (nth_error_None _ j)) in Heq; [discriminate|].
    rewrite length_spiral_traj. lia.
Qed.


End Spiral.





Example spiral_five_turns_length :
  length (coordinates (spiral_traj (Np.point2 3 (-4)) 5 2 7)) = 21%nat.
Proof. reflexivity. Qed.

(** ** The square spiral as a figure *)

Section SpiralFigure.
Import Np NpFacts F64Facts.

Variable center : Row2.
Variable num_turns : nat.
Variable distance : Z.
Variable fid : Z.

Hypothesis Hexact : exact_range center num_turns distance.

(** X1.  On the inputs for which the arithmetic is exact, the corners of
    turn [q]: the spiral starts the turn on the diagonal at [q] steps from
    the centre, goes to the three other corners of the square of half side
    [q + 1] and ends on the diagonal again. *)
Theorem spiral_traj_corners q :
  (q < num_turns)%nat ->
  let cx := fst center in
  let cy := snd center in
  let a := Z.of_nat q * distance in
  let b := (Z.of_nat q + 1) * distance in
  nth_error (coordinates (spiral_traj (astype_float center) num_turns distance fid))
    (4 * q)
  = Some (point (cx + a) (cy + a) 0) /\
  nth_error (coordinates (spiral_traj (astype_float center) num_turns distance fid))
    (4 * q + 1)
  = Some (point (cx + a) (cy - b) 0) /\
  nth_error (coordinates (spiral_traj (astype_float center) num_turns distance fid))
    (4 * q + 2)
  = Some (point (cx - b) (cy - b) 0) /\
  nth_error (coordinates (spiral_traj (astype_float center) num_turns distance fid))
    (4 * q + 3)
  = Some (point (cx - b) (cy + b) 0) /\
  nth_error (coordinates (spiral_traj (astype_float center) num_turns distance fid))
    (4 * q + 4)
  = Some (point (cx + b) (cy + b) 0).
Proof.
  intros Hq. cbv zeta.
  rewrite !nth_error_spiral_traj by (assumption || lia).
  assert (Hdiag : forall n, spiral_offset (4 * n) = leg (Z.of_nat n) 0).
  { intros n. rewrite <- (Nat.add_0_r (4 * n)). apply spiral_offset_split. lia. }
  replace (4 * q + 4)%nat with (4 * S q)%nat by lia.
  rewrite !Hdiag, !spiral_offset_split by lia.
  unfold leg. cbn [fst snd].
  rewrite Nat2Z.inj_succ. unfold Z.succ.
  repeat split; apply f_equal; apply f_equal3; try reflexivity;
    ring.
Qed.

Lemma square_radius_point k :
  (k <= 4 * num_turns)%nat ->
  square_radius center
    (point (fst center + fst (spiral_offset k) * distance)
           (snd center + snd (spiral_offset k) * distance) 0)
  = Z.max (Z.abs (fst (spiral_offset k))) (Z.abs (snd (spiral_offset k)))
    * Z.abs distance.
Proof.
  intros Hk.
  destruct (spiral_point_representable center num_turns distance k Hexact Hk)
    as [Hx Hy].
  unfold square_radius, point. cbn [fst snd].
  rewrite !trunc_of_Z by assumption.
  replace (fst center + fst (spiral_offset k) * distance - fst center)
    with (fst (spiral_offset k) * distance) by ring.
  replace (snd center + snd (spiral_offset k) * distance - snd center)
    with (snd (spiral_offset k) * distance) by ring.
  rewrite !Z.abs_mul. rewrite Z.mul_max_distr_nonneg_r by apply Z.abs_nonneg.
  reflexivity.
Qed.

(** X2.  On the inputs for which the arithmetic is exact, the whole spiral
    lies in the square of half side [T * |S|] around the centre, and its
    last point is a corner of that square. *)
Theorem spiral_traj_bounding_square :
  (forall p,
     In p (coordinates (spiral_traj (astype_float center) num_turns distance fid)) ->
     square_radius center p <= Z.of_nat num_turns * Z.abs distance) /\
  nth_error (coordinates (spiral_traj (astype_float center) num_turns distance fid))
    (4 * num_turns)
  = Some (point (fst center + Z.of_nat num_turns * distance)
                (snd center + Z.of_nat num_turns * distance) 0).
Proof.
  split.
  - intros p Hin. apply In_nth_error in Hin. destruct Hin as [k Hk].
    apply nth_error_spiral_traj_inv in Hk; [|exact Hexact].
    destruct Hk as [Hk ->].
    rewrite square_radius_point by exact Hk.
    apply Z.mul_le_mono_nonneg_r; [apply Z.abs_nonneg|now apply ring_bound].
  - rewrite nth_error_spiral_traj by (assumption || lia).
    replace (4 * num_turns)%nat with (4 * num_turns + 0)%nat by lia.
    rewrite spiral_offset_split by lia. reflexivity.
Qed.

(** X3.  On the inputs for which the arithmetic is exact, the distance from
    the centre, in the maximum norm, never decreases along the spiral. *)
Theorem spiral_traj_outward i j p q :
  (i <= j)%nat ->
  nth_error (coordinates (spiral_traj (astype_float center) num_turns distance fid)) i
  = Some p ->
  nth_error (coordinates (spiral_traj (astype_float center) num_turns distance fid)) j
  = Some q ->
  square_radius center p <= square_radius center q.
Proof.
  intros Hij Hp Hq.
  apply nth_error_spiral_traj_inv in Hp, Hq; try exact Hexact.
  destruct Hp as [Hi ->], Hq as [Hj ->].
  rewrite !square_radius_point by assumption.
  apply Z.mul_le_mono_nonneg_r; [apply Z.abs_nonneg|now apply ring_monotone].
Qed.

(** X4.  On the inputs for which the arithmetic is exact and with at least
    one turn, the waypoints are pairwise distinct exactly when the step is
    not 0 (a negative step gives the mirrored spiral); with step 0 every
    waypoint is the centre. *)
Theorem spiral_traj_distinct_iff :
  (1 <= num_turns)%nat ->
  (NoDup (coordinates (spiral_traj (astype_float center) num_turns distance fid))
   <-> distance <> 0) /\
  (distance = 0 ->
   forall p,
     In p (coordinates (spiral_traj (astype_float center) num_turns distance fid)) ->
     p = point (fst center) (snd center) 0).
Proof.
  intros HT. split; [split|].
  - intros Hnd Hz.
    assert (H01 : 0%nat = 1%nat).
    { apply (proj1 (NoDup_nth_error _) Hnd).
      - rewrite length_spiral_traj. lia.
      - rewrite !nth_error_spiral_traj by (assumption || lia).
        now rewrite Hz, !Z.mul_0_r. }
    discriminate.
  - now apply spiral_traj_NoDup.
  - intros Hz p Hin. apply In_nth_error in Hin. destruct Hin as [k Hk].
    apply nth_error_spiral_traj_inv in Hk; [|exact Hexact].
    destruct Hk as [_ ->].
    now rewrite Hz, !Z.mul_0_r, !Z.add_0_r.
Qed.

End SpiralFigure.

(** ** The length of the spiral *)

Section SpiralLength.
Import Np NpFacts F64Facts.

Lemma total_app l1 l2 : total (l1 ++ l2) = total l1 + total l2.
Proof. unfold total. induction l1 as [|x l1 IH]; simpl; lia. Qed.

(** Twice the sum of 1, ..., n. *)
Lemma total_arange n :
  2 * total (map Z.abs (arange 1 (Z.of_nat n + 1)))
  = Z.of_nat n * (Z.of_nat n + 1).
Proof.
  unfold arange. replace (Z.of_nat n + 1 - 1) with (Z.of_nat n) by lia.
  rewrite Nat2Z.id.
  induction n as [|n IH]; [reflexivity|].
  rewrite seq_S, !map_app, total_app. unfold total at 2. cbn [map fold_right Nat.add].
  lia.
Qed.

Lemma total_repeat_each l :
  total (map Z.abs (repeat_each l 2)) = 2 * total (map Z.abs l).
Proof.
  unfold repeat_each. induction l as [|x l IH]; [reflexivity|].
  cbn [flat_map repeat app map] in *. unfold total in *. cbn [fold_right]. lia.
Qed.

Lemma total_scalar_mul d l :
  total (map Z.abs (Exact.scalar_mul d l)) = Z.abs d * total (map Z.abs l).
Proof.
  unfold Exact.scalar_mul, total.
  induction l as [|x l IH]; cbn [map fold_right]; [lia|].
  rewrite IH, Z.abs_mul. lia.
Qed.

Lemma total_mul_col ds cs :
  Forall axis_unit ds -> length ds = length cs ->
  total (map (fun r => Z.abs (fst r) + Z.abs (snd r)) (Exact.mul_col ds cs))
  = total (map Z.abs cs).
Proof.
  unfold Exact.mul_col, total. intros Hu. revert cs.
  induction Hu as [|u ds Hu _ IH]; intros [|c cs] Hlen; try discriminate;
    [reflexivity|].
  cbn [combine map fold_right fst snd Exact.scale].
  rewrite IH by (simpl in Hlen; lia).
  unfold axis_unit in Hu. rewrite !Z.abs_mul. nia.
Qed.

Lemma path_length_waypoints ds : forall acc,
  Forall Exact.representable (acc :: Exact.cumsum_from acc ds) ->
  path_length (map Exact.waypoint (acc :: Exact.cumsum_from acc ds))
  = total (map (fun r => Z.abs (fst r) + Z.abs (snd r)) ds).
Proof.
  unfold total.
  induction ds as [|d ds IH]; intros acc Hr; [reflexivity|].
  inversion Hr as [|? ? Ha Hrest]; subst.
  specialize (IH (Exact.add2 acc d) Hrest).
  cbn [Exact.cumsum_from] in Hrest.
  inversion Hrest as [|? ? Hb _]; subst.
  cbn [Exact.cumsum_from map path_length fold_right] in *.
  rewrite IH. f_equal.
  unfold leg_length, Exact.waypoint, Exact.add2, Exact.representable in *.
  cbn [fst snd] in *.
  rewrite !trunc_of_Z by lia.
  replace (fst acc + fst d - fst acc) with (fst d) by ring.
  replace (snd acc + snd d - snd acc) with (snd d) by ring.
  reflexivity.
Qed.

(** X5.  On the inputs for which the arithmetic is exact, the way along the
    waypoints of [T] turns with step [S] is [2 * T * (2 * T + 1) * |S|]
    long: two legs of each of the lengths |S|, 2|S|, ..., 2T|S|. *)
Theorem spiral_traj_path_length center num_turns distance fid :
  exact_range center num_turns distance ->
  path_length (coordinates (spiral_traj (astype_float center) num_turns distance fid))
  = 2 * Z.of_nat num_turns * (2 * Z.of_nat num_turns + 1) * Z.abs distance.
Proof.
  intros Hr. rewrite spiral_traj_exact by exact Hr.
  pose proof (exact_coordinates_representable _ _ _ Hr) as Hc.
  unfold Exact.coordinates in *.
  rewrite path_length_waypoints by exact Hc.
  unfold Exact.deltas.
  rewrite total_mul_col.
  - rewrite total_scalar_mul, total_repeat_each.
    replace (Z.of_nat num_turns * 2 + 1) with (Z.of_nat (2 * num_turns) + 1) by lia.
    pose proof (total_arange (2 * num_turns)) as H.
    set (A := total (map Z.abs (arange 1 (Z.of_nat (2 * num_turns) + 1)))) in *.
    rewrite Nat2Z.inj_mul in H. change (Z.of_nat 2) with 2 in H. nia.
  - apply axis_unit_tile.
  - unfold Exact.scalar_mul.
    rewrite length_tile, length_map, length_dist_coefs. simpl. lia.
Qed.

End SpiralLength.

Lemma spiral_traj_corners_witness :
  exact_range (0, 0) 1 2 /\ (0 < 1)%nat /\
  nth_error (coordinates (spiral_traj (Np.point2 0 0) 1 2 7)) 3
  = Some (Np.point (0 - (0 + 1) * 2) (0 + (0 + 1) * 2) 0).
Proof.
  assert (Hr : exact_range (0, 0) 1 2) by (split; vm_compute; reflexivity).
  assert (H : (0 < 1)%nat) by lia.
  split; [exact Hr|]. split; [exact H|].
  exact (proj1 (proj2 (proj2 (proj2 (spiral_traj_corners (0, 0) 1 2 7 Hr 0 H))))).
Defined.

Lemma spiral_traj_bounding_square_witness :
  exact_range (0, 0) 1 2 /\
  In (Np.point (-2) 2 0) (coordinates (spiral_traj (Np.point2 0 0) 1 2 7)) /\
  square_radius (0, 0) (Np.point (-2) 2 0) <= Z.of_nat 1 * Z.abs 2.
Proof.
  assert (Hr : exact_range (0, 0) 1 2) by (split; vm_compute; reflexivity).
  assert (H : In (Np.point (-2) 2 0) (coordinates (spiral_traj (Np.point2 0 0) 1 2 7)))
    by (vm_compute; tauto).
  split; [exact Hr|]. split; [exact H|].
  exact (proj1 (spiral_traj_bounding_square (0, 0) 1 2 7 Hr) (Np.point (-2) 2 0) H).
Defined.

Lemma spiral_traj_outward_witness :
  exact_range (0, 0) 1 2 /\ (1 <= 4)%nat /\
  square_radius (0, 0) (Np.point 0 (-2) 0) <= square_radius (0, 0) (Np.point 2 2 0).
Proof.
  assert (Hr : exact_range (0, 0) 1 2) by (split; vm_compute; reflexivity).
  assert (H : (1 <= 4)%nat) by lia.
  split; [exact Hr|]. split; [exact H|].
  exact (spiral_traj_outward (0, 0) 1 2 7 Hr 1 4 (Np.point 0 (-2) 0) (Np.point 2 2 0) H
           eq_refl eq_refl).
Defined.

Lemma spiral_traj_distinct_iff_witness :
  exact_range (0, 0) 1 2 /\ (1 <= 1)%nat /\
  (NoDup (coordinates (spiral_traj (Np.point2 0 0) 1 2 7)) <-> 2 <> 0).
Proof.
  assert (Hr : exact_range (0, 0) 1 2) by (split; vm_compute; reflexivity).
  assert (H : (1 <= 1)%nat) by lia.
  split; [exact Hr|]. split; [exact H|].
  exact (proj1 (spiral_traj_distinct_iff (0, 0) 1 2 7 Hr H)).
Defined.

Lemma spiral_traj_path_length_witness :
  exact_range (3, -4) 5 2 /\
  path_length (coordinates (spiral_traj (Np.point2 3 (-4)) 5 2 7)) = 220.
Proof.
  assert (Hr : exact_range (3, -4) 5 2) by (split; vm_compute; reflexivity).
  split; [exact Hr|].
  exact (spiral_traj_path_length (3, -4) 5 2 7 Hr).
Defined.

(** ** The cursor *)

Section Cursor.

Variable t : SearchTrajectory.

Lemma py_index_in_range {A} (a : list A) i :
  0 <= i < Z.of_nat (length a) -> exists x, py_index a i = Some x.
Proof.
  intros Hi. unfold py_index.
  replace (0 <=? i) with true by (symmetry; apply Z.leb_le; lia).
  replace (i <? Z.of_nat (length a)) with true by (symmetry; apply Z.ltb_lt; lia).
  cbn [andb].
  destruct (nth_error a (Z.to_nat i)) as [x|] eqn:E; [now exists x|].
  apply nth_error_None in E. lia.
Qed.

Lemma py_index_Some {A} (a : list A) i x :
  py_index a i = Some x -> - Z.of_nat (length a) <= i < Z.of_nat (length a).
Proof.
  unfold py_index.
  destruct (0 <=? i) eqn:E0; destruct (i <? Z.of_nat (length a)) eqn:E1;
    cbn [andb]; try (intros _; lia);
    destruct (- Z.of_nat (length a) <=? i) eqn:E2;
    destruct (i <? 0) eqn:E3; cbn [andb]; try discriminate; intros _; lia.
Qed.

Lemma py_index_past_end {A} (a : list A) i :
  Z.of_nat (length a) <= i -> py_index a i = None.
Proof.
  intros Hi. unfold py_index.
  replace (i <? Z.of_nat (length a)) with false by (symmetry; apply Z.ltb_ge; lia).
  replace (i <? 0) with false by (symmetry; apply Z.ltb_ge; lia).
  now rewrite !andb_false_r.
Qed.

(** C8.  [increment_point] adds exactly 1 to the cursor, so never
    decreases it, touches nothing else, and returns true if and only if
    the cursor after the call is at least the number of coordinates. *)
Theorem increment_point_spec :
  cur_pt (snd (increment_point t)) = cur_pt t + 1 /\
  cur_pt t <= cur_pt (snd (increment_point t)) /\
  coordinates (snd (increment_point t)) = coordinates t /\
  fid_id (snd (increment_point t)) = fid_id t /\
  (fst (increment_point t) = true <->
   cur_pt (snd (increment_point t)) >= len (snd (increment_point t))).
Proof.
  unfold increment_point, len. cbn [fst snd cur_pt coordinates fid_id].
  repeat split; lia.
Qed.

Lemma increment_point_keeps_invariant :
  cursor_invariant t -> cur_pt t < len t ->
  cursor_invariant (snd (increment_point t)).
Proof.
  unfold cursor_invariant, increment_point, len.
  cbn [snd cur_pt coordinates]. lia.
Qed.

(** C9, as the code has it.  On a trajectory with 0 <= cursor <= len,
    reading the current point raises exactly when the trajectory is
    exhausted (cursor = len).  [increment_point] has no guard: it keeps the
    invariant while a point is left, and on an exhausted trajectory it
    returns true with the cursor moved to len + 1. *)
Theorem exhausted_trajectory_operations :
  cursor_invariant t ->
  (get_cur_pt t = None <-> cur_pt t = len t) /\
  (cur_pt t < len t -> cursor_invariant (snd (increment_point t))) /\
  (cur_pt t = len t ->
   increment_point t = (true, mkTraj (coordinates t) (fid_id t) (len t + 1))).
Proof.
  intros Hinv. unfold cursor_invariant in Hinv. split; [split|split].
  - intros Hnone.
    destruct (Z.eq_dec (cur_pt t) (len t)) as [E|E]; [exact E|].
    destruct (py_index_in_range (coordinates t) (cur_pt t)) as [x Hx].
    + unfold len in *. lia.
    + unfold get_cur_pt in Hnone. congruence.
  - intros E. apply py_index_past_end. unfold len in E. lia.
  - now apply increment_point_keeps_invariant.
  - intros E. unfold increment_point.
    cbn [cur_pt]. rewrite E. f_equal.
    apply Z.leb_le. unfold len. cbn [coordinates]. lia.
Qed.

End Cursor.

(** The invariant does not survive [increment_point] on an exhausted
    trajectory, and the call returns instead of raising. *)
Lemma increment_point_breaks_invariant :
  ~ (forall t, cursor_invariant t -> cursor_invariant (snd (increment_point t))) /\
  cursor_invariant spent /\ len spent = 5 /\ cur_pt spent = 5 /\
  increment_point spent = (true, mkTraj (coordinates spent) 7 6).
Proof.
  split; [|repeat split; vm_compute; congruence].
  intros H. specialize (H spent).
  assert (Hs : cursor_invariant spent) by (vm_compute; split; congruence).
  apply H in Hs. vm_compute in Hs. destruct Hs as [_ Hs]. now apply Hs.
Qed.

Lemma exhausted_trajectory_operations_witness :
  cursor_invariant spent /\
  (get_cur_pt spent = None <-> cur_pt spent = len spent).
Proof.
  assert (Hs : cursor_invariant spent) by (vm_compute; split; congruence).
  split; [exact Hs|].
  exact (proj1 (exhausted_trajectory_operations spent Hs)).
Defined.

(** ** One cycle of the search state *)

Section CycleFacts.

Context {P : Platform}.

Implicit Types (ctx : Context) (s : SearchState) (t : SearchTrajectory).

Ltac run_monad :=
  cbv beta iota zeta delta
    [bind ret raise emit read_traj write_traj self_traj current_waypoint
     get_pose send_drive_command env_current_fid_pos];
  cbn [traj trace fst snd].

(** Lines 79-86 never raise and leave a trajectory in [self.traj]. *)
Lemma bind_trajectory_run ctx s :
  bind_trajectory ctx s
  = (Ok (waypoint_fid ctx),
     mkState (Some (bound_traj ctx s)) (trace s ++ bind_events ctx s)).
Proof.
  unfold bind_trajectory, bound_traj, bind_events, needs_rebind.
  destruct s as [[t|] tr]; run_monad.
  - destruct (negb (fid_id t =? waypoint_fid ctx)); run_monad;
      now rewrite <- ?app_assoc.
  - now rewrite <- app_assoc.
Qed.

Lemma send_and_look_run ctx cmd_vel s :
  send_and_look ctx cmd_vel s
  = (Ok (look_label ctx),
     mkState (traj s) (trace s ++ look_events ctx cmd_vel)).
Proof.
  unfold send_and_look, look_label, look_events. run_monad.
  destruct (negb (waypoint_fid ctx =? NO_FIDUCIAL)); run_monad.
  - destruct (current_fid_pos ctx); now rewrite <- !app_assoc.
  - now rewrite <- !app_assoc.
Qed.

(** The cycle, step by step. *)
Lemma evaluate_run ctx s :
  evaluate ctx s
  = let t := bound_traj ctx s in
    let log := trace s ++ bind_events ctx s in
    match get_cur_pt t with
    | None => (Raise IndexError, mkState (Some t) log)
    | Some target_pos =>
        let (cmd_vel, arrived) :=
          get_drive_command target_pos (rover_pose ctx)
            STOP_THRESH DRIVE_FWD_THRESH in
        if arrived then
          if fst (increment_point t) then
            (Ok RESUME_COURSE,
             mkState (Some (snd (increment_point t))) (log ++ [EvGetPose]))
          else
            (Ok (look_label ctx),
             mkState (Some (snd (increment_point t)))
               (log ++ EvGetPose :: look_events ctx cmd_vel))
        else
          (Ok (look_label ctx),
           mkState (Some t) (log ++ EvGetPose :: look_events ctx cmd_vel))
    end.
Proof.
  unfold evaluate. unfold bind at 1. rewrite bind_trajectory_run.
  unfold traj_get_cur_pt. run_monad.
  destruct (get_cur_pt (bound_traj ctx s)) as [p|]; [|reflexivity].
  destruct (get_drive_command p (rover_pose ctx) STOP_THRESH DRIVE_FWD_THRESH)
    as [cmd_vel [|]].
  - unfold traj_increment_point. run_monad.
    destruct (increment_point (bound_traj ctx s)) as [[|] t']; run_monad.
    + reflexivity.
    + rewrite send_and_look_run. cbn [traj trace].
      now rewrite <- app_assoc.
  - rewrite send_and_look_run. cbn [traj trace]. now rewrite <- app_assoc.
Qed.

Lemma increment_point_flag t :
  fst (increment_point t) = exhausted (snd (increment_point t)).
Proof. reflexivity. Qed.

Lemma bound_state ctx s w s1 t :
  bind_trajectory ctx s = (Ok w, s1) -> traj s1 = Some t ->
  t = bound_traj ctx s /\ trace s1 = trace s ++ bind_events ctx s.
Proof.
  rewrite bind_trajectory_run. intros H Ht.
  injection H as _ <-. cbn [traj trace] in *.
  split; [congruence|reflexivity].
Qed.

Lemma bind_events_quiet ctx s e :
  In e (bind_events ctx s ++ [EvGetPose]) ->
  e = EvCurrentWaypoint \/ e = EvGetPose.
Proof.
  unfold bind_events.
  destruct (needs_rebind (traj s) (waypoint_fid ctx)); cbn [app In];
    intuition congruence.
Qed.

(** C4.  When the drive law reports arrival and advancing the trajectory
    reports that it is finished, [evaluate] returns "waypoint_traverse" at
    once: the calls of the cycle are those of lines 79-86 and one
    [get_pose], so no drive command is sent and the fiducial position is
    not asked for; whatever the environment would have answered, the
    outcome is the same. *)
Theorem evaluate_exhaustion_dominates ctx s w s1 t target_pos cmd_vel :
  bind_trajectory ctx s = (Ok w, s1) ->
  traj s1 = Some t ->
  get_cur_pt t = Some target_pos ->
  get_drive_command target_pos (rover_pose ctx) STOP_THRESH DRIVE_FWD_THRESH
  = (cmd_vel, true) ->
  fst (increment_point t) = true ->
  evaluate ctx s
  = (Ok RESUME_COURSE,
     mkState (Some (snd (increment_point t))) (trace s1 ++ [EvGetPose])) /\
  (exists evs,
     trace (snd (evaluate ctx s)) = trace s ++ evs /\
     (forall c, ~ In (EvSendDrive c) evs) /\
     ~ In EvCurrentFidPos evs) /\
  (forall fid_pos,
     fst (evaluate (mkContext (waypoint_fid ctx) (rover_pose ctx) fid_pos) s)
     = Ok RESUME_COURSE).
Proof.
  intros Hb Ht Hp Hd Hfin.
  destruct (bound_state _ _ _ _ _ Hb Ht) as [-> Hlog].
  assert (Hrun : forall c,
             waypoint_fid c = waypoint_fid ctx -> rover_pose c = rover_pose ctx ->
             evaluate c s
             = (Ok RESUME_COURSE,
                mkState (Some (snd (increment_point (bound_traj ctx s))))
                  (trace s1 ++ [EvGetPose]))).
  { intros c Hw Hr. rewrite evaluate_run. cbv zeta.
    assert (Ht' : bound_traj c s = bound_traj ctx s)
      by (unfold bound_traj; now rewrite Hw, Hr).
    assert (He : bind_events c s = bind_events ctx s)
      by (unfold bind_events; now rewrite Hw).
    rewrite Ht', He, Hr, Hp, Hd, Hfin, Hlog. reflexivity. }
  split; [|split].
  - now apply Hrun.
  - rewrite (Hrun ctx eq_refl eq_refl). cbn [snd trace].
    exists (bind_events ctx s ++ [EvGetPose]).
    rewrite Hlog, app_assoc. split; [reflexivity|].
    split; [intros c Hin|intros Hin];
      apply bind_events_quiet in Hin; destruct Hin; discriminate.
  - intros fid_pos. now rewrite Hrun.
Qed.

(** C5, as the code has it.  In a cycle that leaves the trajectory with a
    point to go to (it is not exhausted, and if the rover has arrived at the
    current point, advancing the cursor does not exhaust it), with a
    waypoint that has a fiducial and a fiducial position reported by the
    environment, [evaluate] returns "single_fiducial", whether the rover
    has arrived at the current point or not; the drive command of the cycle
    has been sent by then, before the waypoint and the fiducial position
    are read. *)
Theorem evaluate_visibility_dominates
    ctx s w s1 t target_pos cmd_vel arrived fid_pos :
  bind_trajectory ctx s = (Ok w, s1) ->
  traj s1 = Some t ->
  get_cur_pt t = Some target_pos ->
  get_drive_command target_pos (rover_pose ctx) STOP_THRESH DRIVE_FWD_THRESH
  = (cmd_vel, arrived) ->
  exhausted (if arrived then snd (increment_point t) else t) = false ->
  waypoint_fid ctx <> NO_FIDUCIAL ->
  current_fid_pos ctx = Some fid_pos ->
  evaluate ctx s
  = (Ok HANDOFF_TO_FIDUCIAL_APPROACH,
     mkState (Some (if arrived then snd (increment_point t) else t))
       (trace s1 ++
        [EvGetPose; EvSendDrive cmd_vel; EvCurrentWaypoint; EvCurrentFidPos])).
Proof.
  intros Hb Ht Hp Hd Hleft Hreal Hseen.
  destruct (bound_state _ _ _ _ _ Hb Ht) as [-> Hlog].
  rewrite evaluate_run. cbv zeta. rewrite Hp, Hd, Hlog.
  unfold look_label, look_events.
  apply Z.eqb_neq in Hreal. rewrite Hreal, Hseen. cbn [negb].
  destruct arrived; [|reflexivity].
  rewrite increment_point_flag, Hleft. reflexivity.
Qed.

(** C6.  When the fiducial of the current waypoint is [NO_FIDUCIAL],
    [evaluate] does not return "single_fiducial", and two cycles that
    differ only in the fiducial position reported by the environment end
    with the same outcome (and the same state and calls). *)
Theorem evaluate_no_fiducial ctx ctx' s :
  waypoint_fid ctx = NO_FIDUCIAL ->
  waypoint_fid ctx' = waypoint_fid ctx ->
  rover_pose ctx' = rover_pose ctx ->
  fst (evaluate ctx s) <> Ok HANDOFF_TO_FIDUCIAL_APPROACH /\
  evaluate ctx' s = evaluate ctx s.
Proof.
  intros Hno Hw Hr.
  assert (Ht : bound_traj ctx' s = bound_traj ctx s)
    by (unfold bound_traj; now rewrite Hw, Hr).
  assert (He : bind_events ctx' s = bind_events ctx s)
    by (unfold bind_events; now rewrite Hw).
  assert (Hl : forall c, waypoint_fid c = NO_FIDUCIAL ->
                         look_label c = CONTINUE_SEARCH)
    by (intros c Hc; unfold look_label; now rewrite Hc, Z.eqb_refl).
  assert (Hv : forall c cmd, waypoint_fid c = NO_FIDUCIAL ->
                 look_events c cmd = [EvSendDrive cmd; EvCurrentWaypoint])
    by (intros c cmd Hc; unfold look_events; now rewrite Hc, Z.eqb_refl).
  rewrite !evaluate_run. cbv zeta.
  rewrite Ht, He, Hr, !Hl by congruence.
  split.
  - destruct (get_cur_pt (bound_traj ctx s)) as [p|]; [|discriminate].
    destruct (get_drive_command p (rover_pose ctx) STOP_THRESH DRIVE_FWD_THRESH)
      as [cmd [|]]; [destruct (fst (increment_point _))|]; discriminate.
  - destruct (get_cur_pt (bound_traj ctx s)) as [p|]; [|reflexivity].
    destruct (get_drive_command p (rover_pose ctx) STOP_THRESH DRIVE_FWD_THRESH)
      as [cmd [|]]; rewrite !Hv by congruence; reflexivity.
Qed.

(** C7.  [evaluate] puts a new trajectory in [self.traj] exactly when
    there is none or when its [fid_id] is not the fiducial of the current
    waypoint.  The new one is the spiral of 5 turns and step 2 around the
    planar position (x, y) of the rover, for the fiducial of the waypoint
    and with its cursor at 0: 21 points, the first of them (x, y, 0); by
    the end of the cycle the cursor is at 1 if the drive law reports the
    rover arrived at that first point, and still at 0 if not.  Otherwise
    the trajectory is kept: the cycle changes neither its coordinates nor
    its [fid_id], and the cursor stays or moves by one. *)
Theorem evaluate_rebinding ctx s :
  let x := fst (fst (position (rover_pose ctx))) in
  let y := snd (fst (position (rover_pose ctx))) in
  let fresh := spiral_traj (x, y) 5 2 (waypoint_fid ctx) in
  ((traj s = None \/
    (exists t, traj s = Some t /\ fid_id t <> waypoint_fid ctx)) ->
   traj (snd (bind_trajectory ctx s)) = Some fresh /\
   fid_id fresh = waypoint_fid ctx /\ cur_pt fresh = 0 /\
   length (coordinates fresh) = 21%nat /\
   nth_error (coordinates fresh) 0 = Some (x, y, F64.zero) /\
   exists t',
     traj (snd (evaluate ctx s)) = Some t' /\
     coordinates t' = coordinates fresh /\
     fid_id t' = waypoint_fid ctx /\
     cur_pt t'
     = if snd (get_drive_command (x, y, F64.zero) (rover_pose ctx)
                 STOP_THRESH DRIVE_FWD_THRESH)
       then 1 else 0) /\
  (forall t,
     traj s = Some t -> fid_id t = waypoint_fid ctx ->
     traj (snd (bind_trajectory ctx s)) = Some t /\
     exists t',
       traj (snd (evaluate ctx s)) = Some t' /\
       coordinates t' = coordinates t /\
       fid_id t' = fid_id t /\
       (cur_pt t' = cur_pt t \/ cur_pt t' = cur_pt t + 1)).
Proof.
  cbv zeta. split.
  - intros Hcond.
    assert (Hb : bound_traj ctx s
                 = spiral_traj (fst (fst (position (rover_pose ctx))),
                                snd (fst (position (rover_pose ctx))))
                     5 2 (waypoint_fid ctx)).
    { unfold bound_traj, planar.
      destruct Hcond as [-> | (t & -> & Hne)]; [reflexivity|].
      apply Z.eqb_neq in Hne. now rewrite Hne. }
    assert (H0 : nth_error
                   (coordinates
                      (spiral_traj (fst (fst (position (rover_pose ctx))),
                                    snd (fst (position (rover_pose ctx))))
                         5 2 (waypoint_fid ctx))) 0
                 = Some (fst (fst (position (rover_pose ctx))),
                         snd (fst (position (rover_pose ctx))), F64.zero)).
    { unfold spiral_traj. cbn [coordinates].
      rewrite NpFacts.nth_error_hstack_zeros. reflexivity. }
    split; [rewrite bind_trajectory_run; cbn [snd traj]; now rewrite Hb|].
    split; [reflexivity|]. split; [reflexivity|].
    split; [apply length_spiral_traj|]. split; [exact H0|].
    rewrite evaluate_run. cbv zeta. rewrite Hb.
    assert (Hp : get_cur_pt
                   (spiral_traj (fst (fst (position (rover_pose ctx))),
                                 snd (fst (position (rover_pose ctx))))
                      5 2 (waypoint_fid ctx))
                 = Some (fst (fst (position (rover_pose ctx))),
                         snd (fst (position (rover_pose ctx))), F64.zero)).
    { unfold get_cur_pt, py_index. rewrite length_spiral_traj.
      cbn [cur_pt spiral_traj]. exact H0. }
    rewrite Hp.
    destruct (get_drive_command _ (rover_pose ctx) STOP_THRESH DRIVE_FWD_THRESH)
      as [cmd [|]]; cbn [snd].
    + assert (Hf : fst (increment_point
                          (spiral_traj (fst (fst (position (rover_pose ctx))),
                                        snd (fst (position (rover_pose ctx))))
                             5 2 (waypoint_fid ctx))) = false).
      { unfold increment_point, len. cbn [fst coordinates cur_pt].
        fold (coordinates (spiral_traj (fst (fst (position (rover_pose ctx))),
                                        snd (fst (position (rover_pose ctx))))
                             5 2 (waypoint_fid ctx))).
        rewrite length_spiral_traj. reflexivity. }
      rewrite Hf. eexists. cbn [snd traj]. split; [reflexivity|].
      now repeat split.
    + eexists. cbn [snd traj]. split; [reflexivity|]. now repeat split.
  - intros t Hs Hfid.
    assert (Hb : bound_traj ctx s = t).
    { unfold bound_traj. rewrite Hs, Hfid, Z.eqb_refl. reflexivity. }
    split; [rewrite bind_trajectory_run; cbn [snd traj]; now rewrite Hb|].
    rewrite evaluate_run. cbv zeta. rewrite Hb.
    destruct (get_cur_pt t) as [p|].
    + destruct (get_drive_command p (rover_pose ctx) STOP_THRESH DRIVE_FWD_THRESH)
        as [cmd [|]].
      * exists (snd (increment_point t)).
        split; [now destruct (fst (increment_point _))|].
        cbn [increment_point snd coordinates fid_id cur_pt]. auto.
      * exists t. cbn [snd traj]. auto.
    + exists t. cbn [snd traj]. auto.
Qed.

(** With a trajectory for the fiducial of the waypoint and no point left,
    the cycle stops at [get_cur_pt]. *)
Lemma evaluate_exhausted_raises ctx s t :
  traj s = Some t -> fid_id t = waypoint_fid ctx -> len t <= cur_pt t ->
  evaluate ctx s
  = (Raise IndexError, mkState (Some t) (trace s ++ [EvCurrentWaypoint])).
Proof.
  intros Ht Hfid Hcur.
  rewrite evaluate_run. cbv zeta.
  unfold bound_traj, bind_events, needs_rebind.
  rewrite Ht, Hfid, Z.eqb_refl. cbn [negb].
  unfold get_cur_pt. rewrite py_index_past_end by (unfold len in Hcur; lia).
  reflexivity.
Qed.

(** C10.  When a cycle ends with "waypoint_traverse", [self.traj] still
    holds the trajectory, its cursor equal to the number of coordinates.
    A further call of [evaluate] for a waypoint with the same fiducial
    generates no new trajectory, and reading the current point raises
    [IndexError]. *)
Theorem evaluate_after_exhaustion ctx s s' :
  evaluate ctx s = (Ok RESUME_COURSE, s') ->
  exists t,
    traj s' = Some t /\ cur_pt t = len t /\ fid_id t = waypoint_fid ctx /\
    forall ctx',
      waypoint_fid ctx' = waypoint_fid ctx ->
      needs_rebind (traj s') (waypoint_fid ctx') = false /\
      get_cur_pt t = None /\
      evaluate ctx' s'
      = (Raise IndexError, mkState (Some t) (trace s' ++ [EvCurrentWaypoint])).
Proof.
  rewrite evaluate_run. cbv zeta.
  assert (Hfid : fid_id (bound_traj ctx s) = waypoint_fid ctx).
  { unfold bound_traj. destruct (traj s) as [t0|]; [|reflexivity].
    destruct (fid_id t0 =? waypoint_fid ctx) eqn:E; cbn [negb]; [|reflexivity].
    now apply Z.eqb_eq. }
  assert (Hlab : look_label ctx <> RESUME_COURSE).
  { unfold look_label.
    destruct (negb _); [destruct (current_fid_pos ctx)|]; discriminate. }
  destruct (get_cur_pt (bound_traj ctx s)) as [p|] eqn:Hp; [|discriminate].
  destruct (get_drive_command p (rover_pose ctx) STOP_THRESH DRIVE_FWD_THRESH)
    as [cmd [|]]; [|intros H; injection H; congruence].
  destruct (fst (increment_point (bound_traj ctx s))) eqn:Hfin;
    [|intros H; injection H; congruence].
  intros H. injection H as <-.
  set (t := snd (increment_point (bound_traj ctx s))).
  assert (Hcur : cur_pt t = len t).
  { apply py_index_Some in Hp.
    unfold increment_point in Hfin. cbn [fst] in Hfin.
    apply Z.leb_le in Hfin.
    subst t. unfold increment_point, len in *.
    cbn [snd cur_pt coordinates] in *. lia. }
  assert (Hnone : get_cur_pt t = None)
    by (apply py_index_past_end; unfold len in Hcur; lia).
  exists t. cbn [traj trace].
  split; [reflexivity|]. split; [exact Hcur|].
  split; [subst t; exact Hfid|].
  intros ctx' Hsame.
  assert (Hfid' : fid_id t = waypoint_fid ctx')
    by (subst t; cbn [snd increment_point fid_id]; congruence).
  split; [|split; [exact Hnone|]].
  - unfold needs_rebind. cbn [fid_id]. now rewrite Hfid, Hsame, Z.eqb_refl.
  - apply evaluate_exhausted_raises; [reflexivity|exact Hfid'|lia].
Qed.

End CycleFacts.

(** ** The theorems at work *)

(** The rover stands on the last point of [last_leg] and a fiducial is in
    view: the search is given up all the same, and nothing is sent. *)
Lemma evaluate_exhaustion_dominates_witness :
  evaluate (P := grid) on_last_point (mkState (Some last_leg) [])
  = (Ok RESUME_COURSE, mkState (Some spent) [EvCurrentWaypoint; EvGetPose]).
Proof.
  exact (proj1 (evaluate_exhaustion_dominates (P := grid)
                  on_last_point (mkState (Some last_leg) [])
                  7 (mkState (Some last_leg) [EvCurrentWaypoint])
                  last_leg (Np.point 2 2 0) (Np.point2 0 0)
                  eq_refl eq_refl eq_refl eq_refl eq_refl)).
Defined.

(** The rover is at the centre, on its way to the second point, and the
    fiducial is in view. *)
Lemma evaluate_visibility_dominates_witness :
  evaluate (P := grid) at_center_seeing (mkState (Some first_leg) [])
  = (Ok HANDOFF_TO_FIDUCIAL_APPROACH,
     mkState (Some first_leg)
       [EvCurrentWaypoint; EvGetPose; EvSendDrive (P := grid) (Np.point2 0 (-2));
        EvCurrentWaypoint; EvCurrentFidPos]).
Proof.
  refine (evaluate_visibility_dominates (P := grid)
            at_center_seeing (mkState (Some first_leg) [])
            7 (mkState (Some first_leg) [EvCurrentWaypoint])
            first_leg (Np.point 0 (-2) 0) (Np.point2 0 (-2)) false (Np.point 1 1 0)
            eq_refl eq_refl eq_refl eq_refl eq_refl _ eq_refl).
  vm_compute. discriminate.
Defined.

Lemma evaluate_no_fiducial_witness :
  fst (evaluate (P := grid) (mkContext (P := grid) (-1) (Np.point 0 0 0) None) init)
  <> Ok HANDOFF_TO_FIDUCIAL_APPROACH /\
  evaluate (P := grid) (mkContext (P := grid) (-1) (Np.point 0 0 0) (Some (Np.point 1 1 0))) init
  = evaluate (P := grid) (mkContext (P := grid) (-1) (Np.point 0 0 0) None) init.
Proof.
  exact (evaluate_no_fiducial (P := grid)
           (mkContext (P := grid) (-1) (Np.point 0 0 0) None)
           (mkContext (P := grid) (-1) (Np.point 0 0 0) (Some (Np.point 1 1 0)))
           init eq_refl eq_refl eq_refl).
Defined.

(** The rover is at (3, -4), two points along a spiral for fiducial 7, and
    is sent to the waypoint of fiducial 9: the spiral is replaced by one
    around (3, -4), and the rover, being on its first point, moves the
    cursor to the second.  Still on the waypoint of fiducial 7, the
    trajectory and its cursor are kept. *)
Lemma evaluate_rebinding_witness :
  (traj (snd (bind_trajectory (P := grid) sent_to_9 (mkState (Some first_leg) [])))
   = Some (spiral_traj (Np.point2 3 (-4)) 5 2 9) /\
   nth_error (coordinates (spiral_traj (Np.point2 3 (-4)) 5 2 9)) 0
   = Some (Np.point 3 (-4) 0) /\
   exists t',
     traj (snd (evaluate (P := grid) sent_to_9 (mkState (Some first_leg) [])))
     = Some t' /\
     coordinates t' = coordinates (spiral_traj (Np.point2 3 (-4)) 5 2 9) /\
     fid_id t' = 9 /\ cur_pt t' = 1) /\
  (traj (snd (bind_trajectory (P := grid) far_from_7 (mkState (Some first_leg) [])))
   = Some first_leg /\
   exists t',
     traj (snd (evaluate (P := grid) far_from_7 (mkState (Some first_leg) [])))
     = Some t' /\
     coordinates t' = coordinates first_leg /\
     fid_id t' = 7 /\ (cur_pt t' = 1 \/ cur_pt t' = 1 + 1)).
Proof.
  split.
  - assert (Hcond : traj (mkState (P := grid) (Some first_leg) []) = None \/
                    (exists t, traj (mkState (P := grid) (Some first_leg) []) = Some t /\
                               fid_id t <> waypoint_fid sent_to_9)).
    { right. exists first_leg. split; [reflexivity|]. vm_compute. discriminate. }
    destruct (proj1 (evaluate_rebinding (P := grid) sent_to_9
                       (mkState (Some first_leg) [])) Hcond)
      as (Hb & _ & _ & _ & H0 & He).
    split; [exact Hb|]. split; [exact H0|]. exact He.
  - exact (proj2 (evaluate_rebinding (P := grid) far_from_7
                    (mkState (Some first_leg) []))
             first_leg eq_refl eq_refl).
Defined.

(** C5 as the design document has it does not hold of [evaluate].  The
    trajectory [last_leg] is not exhausted (cursor 4 of 5 points), the
    waypoint has fiducial 7 and the fiducial is in view; the rover stands
    on the last point, so the cycle advances the cursor to 5, returns
    "waypoint_traverse" and sends nothing. *)
Lemma evaluate_visibility_overridden :
  ~ (forall (P : Platform) (ctx : Context) (s : SearchState) t fid_pos,
       traj s = Some t -> fid_id t = waypoint_fid ctx ->
       exhausted t = false ->
       waypoint_fid ctx <> NO_FIDUCIAL ->
       current_fid_pos ctx = Some fid_pos ->
       fst (evaluate ctx s) = Ok HANDOFF_TO_FIDUCIAL_APPROACH) /\
  exhausted last_leg = false /\
  cur_pt last_leg = 4 /\ len last_leg = 5 /\
  fid_id last_leg = waypoint_fid on_last_point /\
  waypoint_fid on_last_point <> NO_FIDUCIAL (Platform := grid) /\
  current_fid_pos on_last_point = Some (Np.point 1 1 0) /\
  evaluate (P := grid) on_last_point (mkState (Some last_leg) [])
  = (Ok RESUME_COURSE, mkState (Some spent) [EvCurrentWaypoint; EvGetPose]).
Proof.
  assert (Hreal : waypoint_fid on_last_point <> NO_FIDUCIAL (Platform := grid))
    by (vm_compute; discriminate).
  split; [|repeat split; try exact Hreal; vm_compute; reflexivity].
  intros H.
  specialize (H grid on_last_point (mkState (Some last_leg) []) last_leg
                (Np.point 1 1 0) eq_refl eq_refl eq_refl Hreal eq_refl).
  vm_compute in H. discriminate H.
Qed.

Lemma evaluate_after_exhaustion_witness :
  exists t,
    traj (mkState (P := grid) (Some spent) [EvCurrentWaypoint; EvGetPose]) = Some t /\
    cur_pt t = len t /\ fid_id t = 7 /\
    forall ctx' : Context (P := grid),
      waypoint_fid ctx' = 7 ->
      needs_rebind (Some spent) (waypoint_fid ctx') = false /\
      get_cur_pt t = None /\
      evaluate ctx' (mkState (Some spent) [EvCurrentWaypoint; EvGetPose])
      = (Raise IndexError,
         mkState (Some t) ([EvCurrentWaypoint; EvGetPose] ++ [EvCurrentWaypoint])).
Proof.
  exact (evaluate_after_exhaustion (P := grid)
           on_last_point (mkState (Some last_leg) [])
           (mkState (Some spent) [EvCurrentWaypoint; EvGetPose]) eq_refl).
Defined.

(** From [init], with the rover arriving at each of the 21 points in turn:
    twenty times "search", then "waypoint_traverse"; one more cycle
    raises. *)
Example search_until_exhausted :
  fst (run (P := grid) (tour ++ [at_center_seeing]) init)
  = repeat (Ok CONTINUE_SEARCH) 20 ++ [Ok RESUME_COURSE; Raise IndexError].
Proof. vm_compute. reflexivity. Qed.

(** ** What a cycle keeps and what it can raise *)

Section CycleInvariants.

Context {P : Platform}.

Implicit Types (ctx : Context) (s : SearchState) (t : SearchTrajectory).

Lemma traj_after_evaluate ctx s :
  traj (snd (evaluate ctx s)) = Some (bound_traj ctx s) \/
  (exists p, get_cur_pt (bound_traj ctx s) = Some p) /\
  traj (snd (evaluate ctx s)) = Some (snd (increment_point (bound_traj ctx s))).
Proof.
  rewrite evaluate_run. cbv zeta.
  destruct (get_cur_pt (bound_traj ctx s)) as [p|]; [|now left].
  destruct (get_drive_command p (rover_pose ctx) STOP_THRESH DRIVE_FWD_THRESH)
    as [cmd [|]]; [|now left].
  right. split; [now exists p|].
  now destruct (fst (increment_point (bound_traj ctx s))).
Qed.

Lemma bound_traj_cases ctx s :
  bound_traj ctx s
  = spiral_traj (planar (position (rover_pose ctx))) 5 2 (waypoint_fid ctx) \/
  traj s = Some (bound_traj ctx s).
Proof.
  unfold bound_traj. destruct (traj s) as [t|]; [|now left].
  destruct (negb (fid_id t =? waypoint_fid ctx)); [now left|now right].
Qed.

(** X6.  A cycle keeps [0 <= cur_pt <= len(coordinates)]: if the trajectory held
    before the cycle (if any) satisfies it, so does the one held after,
    whether the cycle returns or raises. *)
Theorem evaluate_keeps_cursor_invariant ctx s :
  (forall t, traj s = Some t -> cursor_invariant t) ->
  forall t', traj (snd (evaluate ctx s)) = Some t' -> cursor_invariant t'.
Proof.
  intros Hinv t' Ht'.
  assert (Hb : cursor_invariant (bound_traj ctx s)).
  { destruct (bound_traj_cases ctx s) as [-> | Hs]; [|now apply Hinv].
    unfold cursor_invariant, len. rewrite length_spiral_traj.
    cbn [cur_pt spiral_traj]. lia. }
  destruct (traj_after_evaluate ctx s) as [H | [[p Hp] H]];
    rewrite H in Ht'; injection Ht' as <-; [exact Hb|].
  apply increment_point_keeps_invariant; [exact Hb|].
  apply py_index_Some in Hp. unfold len. lia.
Qed.

(** X7.  Whatever the cycles, any trajectory the search state holds after a run
    from [init] has the 21 points of a spiral of 5 turns, all with z = 0,
    and a cursor between 0 and 21. *)
Theorem run_invariant (ctxs : list Context) t :
  traj (snd (run ctxs init)) = Some t ->
  length (coordinates t) = 21%nat /\
  Forall (fun p => snd p = F64.zero) (coordinates t) /\
  0 <= cur_pt t <= 21.
Proof.
  set (Inv := fun s : SearchState =>
                forall t, traj s = Some t ->
                          length (coordinates t) = 21%nat /\
                          Forall (fun p => snd p = F64.zero) (coordinates t) /\
                          0 <= cur_pt t <= 21).
  assert (Hstep : forall ctx s, Inv s -> Inv (snd (evaluate ctx s))).
  { intros ctx s Hs t' Ht'.
    assert (Hb : Inv (mkState (Some (bound_traj ctx s)) [])).
    { intros t0 Ht0. injection Ht0 as <-.
      destruct (bound_traj_cases ctx s) as [-> | Hk]; [|now apply Hs].
      split; [apply length_spiral_traj|]. split; [|cbn [cur_pt spiral_traj]; lia].
      apply Forall_forall. intros p Hin.
      apply In_nth_error in Hin. destruct Hin as [k Hk].
      exact (spiral_traj_z _ _ _ _ k p Hk). }
    specialize (Hb _ eq_refl). destruct Hb as (Hl & Hz & Hc).
    destruct (traj_after_evaluate ctx s) as [H | [[p Hp] H]];
      rewrite H in Ht'; injection Ht' as <-; [now repeat split|].
    apply py_index_Some in Hp. rewrite Hl in Hp.
    cbn [increment_point snd coordinates cur_pt]. repeat split; try assumption; lia. }
  assert (Hrun : forall cs s, Inv s -> Inv (snd (run cs s))).
  { induction cs as [|c cs IH]; intros s Hs; [exact Hs|].
    cbn [run]. specialize (Hstep c s Hs).
    destruct (evaluate c s) as [[l|e] s']; cbn [snd] in *.
    - specialize (IH s' Hstep). now destruct (run cs s'). 
    - exact Hstep. }
  apply (Hrun ctxs init). intros t0 Ht0. discriminate.
Qed.

(** X8.  [evaluate] raises exactly when it keeps its trajectory and the cursor
    of that trajectory is outside [-len, len); the exception is then
    [IndexError], the trajectory is left as it was and the only call made
    is [current_waypoint].  In particular a cycle that generates a
    trajectory never raises, and nothing raises [AttributeError]. *)
Theorem evaluate_raises_iff ctx s :
  ((exists e, fst (evaluate ctx s) = Raise e) <->
   (exists t, traj s = Some t /\ fid_id t = waypoint_fid ctx /\
              ~ (- len t <= cur_pt t < len t))) /\
  (forall e, fst (evaluate ctx s) = Raise e ->
             e = IndexError /\
             snd (evaluate ctx s)
             = mkState (traj s) (trace s ++ [EvCurrentWaypoint])).
Proof.
  assert (Hfresh : forall c w, exists p, get_cur_pt (spiral_traj c 5 2 w) = Some p).
  { intros c w. apply py_index_in_range.
    rewrite length_spiral_traj. cbn [cur_pt spiral_traj]. lia. }
  rewrite evaluate_run. cbv zeta.
  unfold bound_traj, bind_events, needs_rebind.
  destruct (traj s) as [t|] eqn:Hs.
  - destruct (fid_id t =? waypoint_fid ctx) eqn:Hf; cbn [negb].
    + apply Z.eqb_eq in Hf.
      destruct (get_cur_pt t) as [p|] eqn:Hp.
      * assert (Hin : - len t <= cur_pt t < len t)
          by (apply py_index_Some in Hp; exact Hp).
        destruct (get_drive_command p (rover_pose ctx) STOP_THRESH DRIVE_FWD_THRESH)
          as [cmd [|]]; [destruct (fst (increment_point t))|];
          (split; [split|]);
          try (intros [e He]; discriminate);
          try (intros e He; discriminate);
          intros (t0 & Ht0 & _ & Hout); injection Ht0 as <-; contradiction.
      * split; [split|].
        -- intros _. exists t. repeat split; try assumption.
           intros Hin. unfold get_cur_pt in Hp.
           destruct (Z_lt_le_dec (cur_pt t) 0) as [Hneg|Hpos].
           ++ unfold py_index in Hp.
              replace (0 <=? cur_pt t) with false in Hp
                by (symmetry; apply Z.leb_gt; lia).
              replace (- Z.of_nat (length (coordinates t)) <=? cur_pt t) with true in Hp
                by (symmetry; apply Z.leb_le; unfold len in Hin; lia).
              replace (cur_pt t <? 0) with true in Hp
                by (symmetry; apply Z.ltb_lt; lia).
              cbn [andb] in Hp. apply nth_error_None in Hp.
              unfold len in Hin. lia.
           ++ destruct (py_index_in_range (coordinates t) (cur_pt t)) as [x Hx];
                [unfold len in Hin; lia | congruence].
        -- intros _. now exists IndexError.
        -- intros e He. injection He as <-. split; reflexivity.
    + destruct (Hfresh (planar (position (rover_pose ctx))) (waypoint_fid ctx))
        as [p Hp]. rewrite Hp.
      apply Z.eqb_neq in Hf.
      destruct (get_drive_command p (rover_pose ctx) STOP_THRESH DRIVE_FWD_THRESH)
        as [cmd [|]]; [destruct (fst (increment_point _))|];
        (split; [split|]);
        try (intros [e He]; discriminate);
        try (intros e He; discriminate);
        intros (t0 & Ht0 & Hsame & _); injection Ht0 as <-; contradiction.
  - destruct (Hfresh (planar (position (rover_pose ctx))) (waypoint_fid ctx))
      as [p Hp]. rewrite Hp.
    destruct (get_drive_command p (rover_pose ctx) STOP_THRESH DRIVE_FWD_THRESH)
      as [cmd [|]]; [destruct (fst (increment_point _))|];
      (split; [split|]);
      try (intros [e He]; discriminate);
      try (intros e He; discriminate);
      intros (t0 & Ht0 & _); discriminate.
Qed.

(** X9.  A cycle that returns, returns one of the three outcomes registered by
    [__init__]. *)
Theorem evaluate_outcome_registered ctx s l :
  fst (evaluate ctx s) = Ok l -> In l add_outcomes.
Proof.
  rewrite evaluate_run. cbv zeta.
  assert (Hl : In (look_label ctx) add_outcomes).
  { unfold look_label, add_outcomes.
    destruct (negb _); [destruct (current_fid_pos ctx)|]; cbn; auto. }
  destruct (get_cur_pt (bound_traj ctx s)) as [p|]; [|discriminate].
  destruct (get_drive_command p (rover_pose ctx) STOP_THRESH DRIVE_FWD_THRESH)
    as [cmd [|]]; [destruct (fst (increment_point _))|];
    cbn [fst]; intros H; injection H as <-; try exact Hl.
  cbn. auto.
Qed.

Lemma sent_commands_app (evs1 evs2 : list Event) :
  sent_commands (evs1 ++ evs2) = sent_commands evs1 ++ sent_commands evs2.
Proof.
  induction evs1 as [|[| |c|] evs1 IH]; cbn [app sent_commands];
    rewrite ?IH; reflexivity.
Qed.

Lemma sent_commands_bind ctx s : sent_commands (bind_events ctx s) = [].
Proof. unfold bind_events. now destruct (needs_rebind _ _). Qed.

Lemma sent_commands_look ctx cmd : sent_commands (look_events ctx cmd) = [cmd].
Proof. unfold look_events. now destruct (negb _). Qed.

(** X10.  A cycle sends at most one drive command: none when it raises or
    returns "waypoint_traverse", and otherwise exactly the command that
    [get_drive_command] gave for the current point and the pose of the
    rover. *)
Theorem evaluate_sends_once ctx s :
  exists evs,
    trace (snd (evaluate ctx s)) = trace s ++ evs /\
    match fst (evaluate ctx s) with
    | Raise _ => sent_commands evs = []
    | Ok l =>
        if String.eqb l RESUME_COURSE then sent_commands evs = []
        else exists target_pos,
               get_cur_pt (bound_traj ctx s) = Some target_pos /\
               sent_commands evs
               = [fst (get_drive_command target_pos (rover_pose ctx)
                         STOP_THRESH DRIVE_FWD_THRESH)]
    end.
Proof.
  rewrite evaluate_run. cbv zeta.
  assert (Hl : String.eqb (look_label ctx) RESUME_COURSE = false).
  { unfold look_label.
    destruct (negb _); [destruct (current_fid_pos ctx)|]; reflexivity. }
  destruct (get_cur_pt (bound_traj ctx s)) as [p|].
  - destruct (get_drive_command p (rover_pose ctx) STOP_THRESH DRIVE_FWD_THRESH)
      as [cmd [|]] eqn:Hd; [destruct (fst (increment_point _))|];
      cbn [fst snd trace]; rewrite <- app_assoc; eexists; (split; [reflexivity|]).
    + cbn [String.eqb Ascii.eqb Bool.eqb]. 
      rewrite sent_commands_app, sent_commands_bind. reflexivity.
    + rewrite Hl. exists p. split; [reflexivity|].
      rewrite sent_commands_app, sent_commands_bind.
      cbn [app sent_commands]. rewrite sent_commands_look, Hd. reflexivity.
    + rewrite Hl. exists p. split; [reflexivity|].
      rewrite sent_commands_app, sent_commands_bind.
      cbn [app sent_commands]. rewrite sent_commands_look, Hd. reflexivity.
  - cbn [fst snd trace]. eexists. split; [reflexivity|].
    apply sent_commands_bind.
Qed.

End CycleInvariants.

(** ** The further properties at work *)

Lemma evaluate_keeps_cursor_invariant_witness :
  cursor_invariant last_leg /\
  forall t',
    traj (snd (evaluate (P := grid) on_last_point (mkState (Some last_leg) [])))
    = Some t' ->
    cursor_invariant t'.
Proof.
  assert (H : forall t, traj (mkState (P := grid) (Some last_leg) []) = Some t ->
                        cursor_invariant t).
  { intros t Ht. injection Ht as <-. vm_compute. split; discriminate. }
  split; [exact (H last_leg eq_refl)|].
  exact (evaluate_keeps_cursor_invariant (P := grid) on_last_point
           (mkState (Some last_leg) []) H).
Defined.

Lemma run_invariant_witness :
  exists t,
    traj (snd (run (P := grid) tour init)) = Some t /\
    length (coordinates t) = 21%nat /\
    Forall (fun p => snd p = F64.zero) (coordinates t) /\
    0 <= cur_pt t <= 21.
Proof.
  eexists. split; [vm_compute; reflexivity|].
  apply (run_invariant (P := grid) tour). vm_compute. reflexivity.
Defined.

Lemma evaluate_outcome_registered_witness :
  fst (evaluate (P := grid) at_center_seeing init)
  = Ok HANDOFF_TO_FIDUCIAL_APPROACH /\
  In HANDOFF_TO_FIDUCIAL_APPROACH add_outcomes.
Proof.
  assert (H : fst (evaluate (P := grid) at_center_seeing init)
              = Ok HANDOFF_TO_FIDUCIAL_APPROACH) by (vm_compute; reflexivity).
  split; [exact H|].
  exact (evaluate_outcome_registered (P := grid) at_center_seeing init _ H).
Defined.

Lemma evaluate_raises_iff_witness :
  exists e,
    fst (evaluate (P := grid) on_last_point (mkState (Some spent) [])) = Raise e.
Proof.
  apply (proj2 (proj1 (evaluate_raises_iff (P := grid) on_last_point
                         (mkState (Some spent) [])))).
  exists spent. split; [reflexivity|]. split; [reflexivity|].
  vm_compute. intros [_ H]. discriminate H.
Defined.

(** ** The shaping of the joystick axes and the teleop callbacks *)

Module TeleopFacts.
Import Teleop.
Local Open Scope Q_scope.

Lemma Qle_bool_false a b : Qle_bool a b = false -> b < a.
Proof.
  intros H. apply Qnot_le_lt. intros H'. apply Qle_bool_iff in H'. congruence.
Qed.

Lemma copysign_nonneg a b : 0 <= b -> copysign a b = Qabs a.
Proof.
  intros H. unfold copysign. apply Qle_bool_iff in H. now rewrite H.
Qed.

Lemma copysign_neg a b : b < 0 -> copysign a b = - Qabs a.
Proof.
  intros H. unfold copysign.
  destruct (Qle_bool 0 b) eqn:E; [|reflexivity].
  apply Qle_bool_iff in E. lra.
Qed.

Lemma Qabs_nonneg_eq a : 0 <= a -> Qabs a == a.
Proof. intros H. now apply Qabs_pos. Qed.

(** The three pieces of [deadzone] for a threshold in [0, 1). *)
Lemma deadzone_cases magnitude threshold :
  0 <= threshold -> threshold < 1 ->
  exists v,
    deadzone magnitude threshold = inr v /\
    ((Qabs magnitude <= threshold /\ v == 0) \/
     (threshold < magnitude /\ v * (1 - threshold) == magnitude - threshold) \/
     (magnitude < - threshold /\ v * (1 - threshold) == magnitude + threshold)).
Proof.
  intros H0 H1. unfold deadzone.
  destruct (Qle_bool (Qabs magnitude) threshold) eqn:Ein.
  - apply Qle_bool_iff in Ein. eexists. split; [reflexivity|]. left.
    split; [exact Ein|]. unfold copysign.
    destruct (Qle_bool 0 magnitude); reflexivity.
  - apply Qle_bool_false in Ein.
    destruct (Qeq_bool (1 - threshold) 0) eqn:Ez.
    + apply Qeq_bool_iff in Ez. lra.
    + apply Qeq_bool_neq in Ez. eexists. split; [reflexivity|]. right.
      assert (Hq : forall a, a / (1 - threshold) * (1 - threshold) == a)
        by (intros a; field; exact Ez).
      assert (Hpos : forall a, 0 <= a -> 0 <= a / (1 - threshold)).
      { intros a Ha. apply Qle_shift_div_l; lra. }
      revert Ein. apply (Qabs_case magnitude); intros Hm Ein.
      * left. split; [lra|].
        rewrite copysign_nonneg by exact Hm.
        rewrite Qabs_nonneg_eq by (apply Hpos; lra). apply Hq.
      * right. split; [lra|].
        rewrite copysign_neg by lra.
        rewrite Qabs_nonneg_eq by (apply Hpos; lra).
        setoid_replace (- ((- magnitude - threshold) / (1 - threshold)) * (1 - threshold))
          with (- ((- magnitude - threshold) / (1 - threshold) * (1 - threshold)))
          by ring.
        rewrite Hq. ring.
Qed.

(** X11.  [deadzone] raises only by dividing by zero: exactly when the threshold
    is 1 and the magnitude is beyond it. *)
Theorem deadzone_raises_iff magnitude threshold e :
  deadzone magnitude threshold = inl e <->
  e = ZeroDivisionError /\ threshold == 1 /\ 1 < Qabs magnitude.
Proof.
  unfold deadzone.
  destruct (Qle_bool (Qabs magnitude) threshold) eqn:Ein.
  - apply Qle_bool_iff in Ein. split; [discriminate|].
    intros (_ & Ht & Hm). lra.
  - apply Qle_bool_false in Ein.
    destruct (Qeq_bool (1 - threshold) 0) eqn:Ez.
    + apply Qeq_bool_iff in Ez. split.
      * intros H. injection H as <-. repeat split; lra.
      * intros (-> & _). reflexivity.
    + apply Qeq_bool_neq in Ez. split; [discriminate|].
      intros (_ & Ht & _). lra.
Qed.

(** X12.  Inside the dead zone the result is 0. *)
Theorem deadzone_inside magnitude threshold :
  Qabs magnitude <= threshold ->
  exists v, deadzone magnitude threshold = inr v /\ v == 0.
Proof.
  intros H. unfold deadzone. apply Qle_bool_iff in H. rewrite H.
  eexists. split; [reflexivity|].
  unfold copysign. destruct (Qle_bool 0 magnitude); reflexivity.
Qed.

(** X13.  For a threshold in [0, 1) and a magnitude in [-1, 1], [deadzone]
    returns a value of the sign of the magnitude, no larger than it in
    absolute value, and full deflection stays full deflection. *)
Theorem deadzone_range magnitude threshold :
  0 <= threshold -> threshold < 1 -> Qabs magnitude <= 1 ->
  exists v,
    deadzone magnitude threshold = inr v /\
    Qabs v <= Qabs magnitude /\
    (0 <= magnitude -> 0 <= v) /\ (magnitude <= 0 -> v <= 0) /\
    (magnitude == 1 -> v == 1) /\ (magnitude == - (1) -> v == - (1)).
Proof.
  intros H0 H1 Hm.
  destruct (deadzone_cases magnitude threshold H0 H1) as (v & Hv & Hc).
  exists v. split; [exact Hv|].
  revert Hm Hc. apply (Qabs_case magnitude); intros Hs Hm Hc;
    apply (Qabs_case v); intros Hsv;
    destruct Hc as [[Hin Hz] | [[Hgt He] | [Hlt He]]];
    repeat split; intros; try nra.
Qed.

(** X14.  For a threshold in [0, 1), [deadzone] is odd and nondecreasing in the
    magnitude. *)
Theorem deadzone_odd_monotone m1 m2 threshold v1 v2 :
  0 <= threshold -> threshold < 1 ->
  deadzone m1 threshold = inr v1 ->
  deadzone m2 threshold = inr v2 ->
  (m2 == - m1 -> v2 == - v1) /\ (m1 <= m2 -> v1 <= v2).
Proof.
  intros H0 H1 E1 E2.
  destruct (deadzone_cases m1 threshold H0 H1) as (w1 & Hw1 & Hc1).
  destruct (deadzone_cases m2 threshold H0 H1) as (w2 & Hw2 & Hc2).
  rewrite E1 in Hw1. rewrite E2 in Hw2.
  injection Hw1 as <-. injection Hw2 as <-.
  revert Hc1 Hc2. apply (Qabs_case m1); intros Hs1 Hc1;
    apply (Qabs_case m2); intros Hs2 Hc2;
    destruct Hc1 as [[Hin1 Hz1] | [[Hgt1 He1] | [Hlt1 He1]]];
    destruct Hc2 as [[Hin2 Hz2] | [[Hgt2 He2] | [Hlt2 He2]]];
    split; intros; try nra.
Qed.

Lemma quadratic_eq val : quadratic val == val * Qabs val.
Proof.
  unfold quadratic, copysign.
  assert (Hsq : val ^ 2 == val * val) by (simpl; reflexivity).
  assert (Habs : Qabs (val ^ 2) == val * val).
  { rewrite Hsq. apply Qabs_pos. nra. }
  destruct (Qle_bool 0 val) eqn:E.
  - apply Qle_bool_iff in E. rewrite Habs, (Qabs_pos val) by exact E. reflexivity.
  - apply Qle_bool_false in E. rewrite Habs, (Qabs_neg val) by lra. ring.
Qed.

(** X15.  [quadratic] squares the magnitude and keeps the sign: it is odd,
    nondecreasing, and on [-1, 1] it does not increase the magnitude. *)
Theorem quadratic_shape a b :
  quadratic a == a * Qabs a /\
  quadratic (- a) == - quadratic a /\
  (a <= b -> quadratic a <= quadratic b) /\
  (Qabs a <= 1 -> Qabs (quadratic a) <= Qabs a).
Proof.
  rewrite !quadratic_eq. rewrite Qabs_opp.
  split; [reflexivity|]. split; [ring|]. split.
  - intros Hab. revert Hab.
    apply (Qabs_case a); intros Ha; apply (Qabs_case b); intros Hb Hab; nra.
  - apply (Qabs_case a); intros Ha H1; apply Qabs_case; intros; nra.
Qed.

Lemma dict_get_set_same {V} (d : Dict V) key v :
  dict_get (dict_set d key v) key = Some v.
Proof.
  induction d as [|[k v'] d IH]; cbn [dict_set dict_get].
  - now rewrite String.eqb_refl.
  - destruct (String.eqb k key) eqn:E; cbn [dict_get]; rewrite E; auto.
Qed.

Lemma dict_get_set_other {V} (d : Dict V) key v key' :
  key' <> key -> dict_get (dict_set d key v) key' = dict_get d key'.
Proof.
  intros Hne. induction d as [|[k v'] d IH]; cbn [dict_set dict_get].
  - destruct (String.eqb_spec key key'); congruence.
  - destruct (String.eqb_spec k key) as [->|Hk]; cbn [dict_get].
    + destruct (String.eqb_spec key key'); congruence.
    + now rewrite IH.
Qed.

Lemma dict_set_set {V} (d : Dict V) key v w :
  dict_set (dict_set d key v) key w = dict_set d key w.
Proof.
  induction d as [|[k v'] d IH]; cbn [dict_set].
  - now rewrite String.eqb_refl.
  - destruct (String.eqb k key) eqn:E; cbn [dict_set]; rewrite E; congruence.
Qed.

Lemma create_joint_msg_eq joints joint value :
  create_joint_msg joints joint value
  = inr (dict_set joints joint (mkJointState [] [] [value] [])).
Proof.
  unfold create_joint_msg, getitem.
  rewrite dict_get_set_same. cbn [name position velocity effort JointState_new app].
  now rewrite dict_set_set.
Qed.

(** X16.  [create_joint_msg] never raises; afterwards the dict holds, under the
    joint, a message whose only content is the one velocity, whatever it
    held there before, and the other joints are untouched. *)
Theorem create_joint_msg_spec joints joint value :
  exists joints',
    create_joint_msg joints joint value = inr joints' /\
    getitem joints' joint = inr (mkJointState [] [] [value] []) /\
    forall other, other <> joint -> dict_get joints' other = dict_get joints other.
Proof.
  eexists. split; [apply create_joint_msg_eq|]. split.
  - unfold getitem. now rewrite dict_get_set_same.
  - intros other Hne. now apply dict_get_set_other.
Qed.

(** X17.  With a wheel radius of 0 the drive callback raises
    [ZeroDivisionError] and publishes nothing. *)
Theorem teleop_drive_callback_zero_radius self msg log :
  WHEEL_RADIUS self == 0 ->
  teleop_drive_callback self msg log = (inl ZeroDivisionError, log).
Proof.
  intros Hz. unfold teleop_drive_callback, bind, lift, truediv.
  apply Qeq_bool_iff in Hz. now rewrite Hz.
Qed.

(** X18.  With a wheel radius other than 0 the drive callback publishes one
    [Chassis] message on "/drive_cmd_wheels", and the wheel speeds in it
    give back the command: their mean times the wheel radius is
    [linear.x], their difference times the wheel radius is the track
    radius times twice [angular.z]. *)
Theorem teleop_drive_callback_kinematics self msg log :
  ~ WHEEL_RADIUS self == 0 ->
  exists command,
    teleop_drive_callback self msg log
    = (inr tt, log ++ [(drive_vel_pub, ChassisMsg command)]) /\
    (omega_l command + omega_r command) / 2 * WHEEL_RADIUS self
    == x (linear msg) /\
    (omega_r command - omega_l command) * WHEEL_RADIUS self
    == 2 * z (angular msg) * TRACK_RADIUS self.
Proof.
  intros Hnz. unfold teleop_drive_callback, bind, lift, truediv, publish.
  destruct (Qeq_bool (WHEEL_RADIUS self) 0) eqn:E.
  - apply Qeq_bool_iff in E. contradiction.
  - eexists. split; [reflexivity|]. cbn [omega_l omega_r].
    split; field; exact Hnz.
Qed.

Section Arm.

Variable self : ArmControl.
Variable msg : Joy.

(** The threshold 0.15 is not 1: [deadzone] does not raise there. *)
Lemma deadzone_15 a : exists d, deadzone a (15 # 100) = inr d.
Proof.
  destruct (deadzone_cases a (15 # 100)) as (d & Hd & _); [lra|lra|].
  now exists d.
Qed.

Lemma button_pair_inr pos neg b :
  button_pair self msg pos neg = inr b <->
  exists p n, button self msg pos = inr p /\ button self msg neg = inr n /\
              b = inject_Z (p - n).
Proof.
  unfold button_pair.
  destruct (button self msg pos) as [e|p]; [split; [discriminate|]|].
  - intros (p & n & H & _). discriminate.
  - destruct (button self msg neg) as [e|n]; [split; [discriminate|]|].
    + intros (p' & n & _ & H & _). discriminate.
    + split.
      * intros H. injection H as <-. now exists p, n.
      * intros (p' & n' & Hp & Hn & ->). congruence.
Qed.

(** What the eight calls of [create_joint_msg] leave in [joints]. *)
Lemma joint_commands_inr joints :
  joint_commands self msg = inr joints <->
  exists ma a1 d1 mb a2 d2 mc a3 d3 md a4 d4 me be mf bf mg bg mh bh,
    (multiplier self "joint_a" = inr ma /\ axis self msg "left_js_x" = inr a1 /\
     deadzone a1 (15 # 100) = inr d1) /\
    (multiplier self "joint_b" = inr mb /\ axis self msg "left_js_y" = inr a2 /\
     deadzone a2 (15 # 100) = inr d2) /\
    (multiplier self "joint_c" = inr mc /\ axis self msg "right_js_y" = inr a3 /\
     deadzone a3 (15 # 100) = inr d3) /\
    (multiplier self "joint_d" = inr md /\ axis self msg "right_js_x" = inr a4 /\
     deadzone a4 (15 # 100) = inr d4) /\
    (multiplier self "joint_e" = inr me /\
     button_pair self msg "right_trigger" "left_trigger" = inr be) /\
    (multiplier self "joint_f" = inr mf /\
     button_pair self msg "right_bumper" "left_bumper" = inr bf) /\
    (multiplier self "finger" = inr mg /\ button_pair self msg "y" "a" = inr bg) /\
    (multiplier self "grip" = inr mh /\ button_pair self msg "b" "x" = inr bh) /\
    joints
    = [("joint_a", command (ma * quadratic d1));
       ("joint_b", command (mb * quadratic (- d2)));
       ("joint_c", command (mc * quadratic (- d3)));
       ("joint_d", command (md * quadratic d4));
       ("joint_e", command (me * quadratic be));
       ("joint_f", command (mf * bf));
       ("hand_finger", command (mg * bg));
       ("hand_grip", command (mh * bh))]%string.
Proof.
  unfold joint_commands. split.
  - intros H.
    repeat
      (first
         [ rewrite create_joint_msg_eq in H; cbv beta iota in H
         | match type of H with
           | match ?x with _ => _ end = _ =>
               let E := fresh "E" in
               destruct x eqn:E; [discriminate|]
           end ]).
    injection H as <-.
    do 20 eexists. repeat (split; [repeat split; eassumption|]).
    reflexivity.
  - intros (ma & a1 & d1 & mb & a2 & d2 & mc & a3 & d3 & md & a4 & d4
            & me & be & mf & bf & mg & bg & mh & bh
            & (Ha & Ha1 & Hd1) & (Hb & Ha2 & Hd2) & (Hc & Ha3 & Hd3)
            & (Hd & Ha4 & Hd4) & (He & Hbe) & (Hf & Hbf) & (Hg & Hbg)
            & (Hh & Hbh) & ->).
    rewrite Ha, Ha1, Hd1, create_joint_msg_eq.
    rewrite Hb, Ha2, Hd2, create_joint_msg_eq.
    rewrite Hc, Ha3, Hd3, create_joint_msg_eq.
    rewrite Hd, Ha4, Hd4, create_joint_msg_eq.
    rewrite He, Hbe, create_joint_msg_eq.
    rewrite Hf, Hbf, create_joint_msg_eq.
    rewrite Hg, Hbg, create_joint_msg_eq.
    rewrite Hh, Hbh, create_joint_msg_eq.
    reflexivity.
Qed.

Lemma publish_joints_run log va vb vc vd ve vf vg vh :
  let joints :=
    [("joint_a", command va); ("joint_b", command vb);
     ("joint_c", command vc); ("joint_d", command vd);
     ("joint_e", command ve); ("joint_f", command vf);
     ("hand_finger", command vg); ("hand_grip", command vh)]%string in
  bind (publish_joint joints joint_a_pub "joint_a") (fun _ =>
  bind (publish_joint joints joint_b_pub "joint_b") (fun _ =>
  bind (publish_joint joints joint_c_pub "joint_c") (fun _ =>
  bind (publish_joint joints joint_d_pub "joint_d") (fun _ =>
  bind (publish_joint joints joint_e_pub "joint_e") (fun _ =>
  bind (publish_joint joints joint_f_pub "joint_f") (fun _ =>
  bind (publish_joint joints finger_pub "hand_finger") (fun _ =>
  publish_joint joints grip_pub "hand_grip"))))))) log
  = (inr tt,
     log ++ [(joint_a_pub, JointStateMsg (command va));
             (joint_b_pub, JointStateMsg (command vb));
             (joint_c_pub, JointStateMsg (command vc));
             (joint_d_pub, JointStateMsg (command vd));
             (joint_e_pub, JointStateMsg (command ve));
             (joint_f_pub, JointStateMsg (command vf));
             (finger_pub, JointStateMsg (command vg));
             (grip_pub, JointStateMsg (command vh))]).
Proof.
  cbv beta iota zeta delta
    [bind publish_joint lift publish getitem dict_get String.eqb Ascii.eqb
     Bool.eqb].
  rewrite <- !app_assoc. reflexivity.
Qed.

(** The arm callback, in one piece: the joints are computed, and if that
    raises nothing is published. *)
Lemma ra_control_callback_run log :
  ra_control_callback self msg log
  = match joint_commands self msg with
    | inl e => (inl e, log)
    | inr joints =>
        match joints with
        | [(_, a); (_, b); (_, c); (_, d); (_, e); (_, f); (_, g); (_, h)] =>
            (inr tt,
             log ++ [(joint_a_pub, JointStateMsg a); (joint_b_pub, JointStateMsg b);
                     (joint_c_pub, JointStateMsg c); (joint_d_pub, JointStateMsg d);
                     (joint_e_pub, JointStateMsg e); (joint_f_pub, JointStateMsg f);
                     (finger_pub, JointStateMsg g); (grip_pub, JointStateMsg h)])
        | _ => ra_control_callback self msg log
        end
    end.
Proof.
  destruct (joint_commands self msg) as [e|joints] eqn:E.
  - unfold ra_control_callback. unfold bind at 1, lift. now rewrite E.
  - pose proof E as E'. apply joint_commands_inr in E'.
    destruct E' as (ma & a1 & d1 & mb & a2 & d2 & mc & a3 & d3 & md & a4 & d4
                    & me & be & mf & bf & mg & bg & mh & bh & _ & _ & _ & _
                    & _ & _ & _ & _ & ->).
    unfold ra_control_callback. unfold bind at 1, lift. rewrite E.
    apply publish_joints_run.
Qed.

(** X19.  The arm callback publishes all or nothing: if it raises, nothing has
    been published; if it returns, it has published eight messages, one on
    each topic in the order of [joint_table], each with a single
    velocity. *)
Theorem ra_control_callback_all_or_nothing log :
  match ra_control_callback self msg log with
  | (inl _, log') => log' = log
  | (inr _, log') =>
      exists new,
        log' = log ++ new /\
        map fst new = map fst joint_table /\
        Forall (fun entry => exists v, snd entry = JointStateMsg (command v)) new
  end.
Proof.
  rewrite ra_control_callback_run.
  destruct (joint_commands self msg) as [e|joints] eqn:E; [reflexivity|].
  apply joint_commands_inr in E.
  destruct E as (ma & a1 & d1 & mb & a2 & d2 & mc & a3 & d3 & md & a4 & d4
                 & me & be & mf & bf & mg & bg & mh & bh & _ & _ & _ & _
                 & _ & _ & _ & _ & ->).
  eexists. split; [reflexivity|]. split; [reflexivity|].
  repeat constructor; eexists; reflexivity.
Qed.

(** X20.  The arm callback returns exactly when every joint has a multiplier in
    [ra_config] and every stick axis and button is mapped to an index that
    the message has. *)
Theorem ra_control_callback_returns_iff log :
  (exists log', ra_control_callback self msg log = (inr tt, log')) <->
  (forall topic joint, In (topic, joint) joint_table ->
                       exists m, multiplier self joint = inr m) /\
  (forall key, In key stick_keys -> exists a, axis self msg key = inr a) /\
  (forall pos neg, In (pos, neg) button_pairs ->
                   exists p n, button self msg pos = inr p /\
                               button self msg neg = inr n).
Proof.
  rewrite ra_control_callback_run. split.
  - intros [log' H].
    destruct (joint_commands self msg) as [e|joints] eqn:E; [discriminate|].
    clear H. apply joint_commands_inr in E.
    destruct E as (ma & a1 & d1 & mb & a2 & d2 & mc & a3 & d3 & md & a4 & d4
                   & me & be & mf & bf & mg & bg & mh & bh
                   & (Ha & Ha1 & _) & (Hb & Ha2 & _) & (Hc & Ha3 & _)
                   & (Hd & Ha4 & _) & (He & Hbe) & (Hf & Hbf) & (Hg & Hbg)
                   & (Hh & Hbh) & _).
    apply button_pair_inr in Hbe, Hbf, Hbg, Hbh.
    destruct Hbe as (p1 & n1 & Hp1 & Hn1 & _), Hbf as (p2 & n2 & Hp2 & Hn2 & _),
      Hbg as (p3 & n3 & Hp3 & Hn3 & _), Hbh as (p4 & n4 & Hp4 & Hn4 & _).
    split; [|split].
    + intros topic joint Hin. cbn [In joint_table] in Hin.
      repeat (destruct Hin as [Hin|Hin]; [injection Hin as <- <-; eauto|]).
      contradiction.
    + intros key Hin. cbn [In stick_keys] in Hin.
      repeat (destruct Hin as [<-|Hin]; [eauto|]). contradiction.
    + intros pos neg Hin. cbn [In button_pairs] in Hin.
      repeat (destruct Hin as [Hin|Hin]; [injection Hin as <- <-; eauto|]).
      contradiction.
  - intros (Hm & Hs & Hb).
    assert (Hmul : forall topic joint, In (topic, joint) joint_table ->
                                       exists m, multiplier self joint = inr m)
      by exact Hm.
    destruct (Hm joint_a_pub "joint_a"%string) as [ma Ha]; [cbn; tauto|].
    destruct (Hm joint_b_pub "joint_b"%string) as [mb Hmb]; [cbn; tauto|].
    destruct (Hm joint_c_pub "joint_c"%string) as [mc Hmc]; [cbn; tauto|].
    destruct (Hm joint_d_pub "joint_d"%string) as [md Hmd]; [cbn; tauto|].
    destruct (Hm joint_e_pub "joint_e"%string) as [me Hme]; [cbn; tauto|].
    destruct (Hm joint_f_pub "joint_f"%string) as [mf Hmf]; [cbn; tauto|].
    destruct (Hm finger_pub "finger"%string) as [mg Hmg]; [cbn; tauto|].
    destruct (Hm grip_pub "grip"%string) as [mh Hmh]; [cbn; tauto|].
    destruct (Hs "left_js_x"%string) as [a1 Ha1]; [cbn; tauto|].
    destruct (Hs "left_js_y"%string) as [a2 Ha2]; [cbn; tauto|].
    destruct (Hs "right_js_y"%string) as [a3 Ha3]; [cbn; tauto|].
    destruct (Hs "right_js_x"%string) as [a4 Ha4]; [cbn; tauto|].
    destruct (deadzone_15 a1) as [d1 Hd1], (deadzone_15 a2) as [d2 Hd2],
      (deadzone_15 a3) as [d3 Hd3], (deadzone_15 a4) as [d4 Hd4].
    destruct (Hb "right_trigger"%string "left_trigger"%string) as (p1 & n1 & Hp1 & Hn1);
      [cbn; tauto|].
    destruct (Hb "right_bumper"%string "left_bumper"%string) as (p2 & n2 & Hp2 & Hn2);
      [cbn; tauto|].
    destruct (Hb "y"%string "a"%string) as (p3 & n3 & Hp3 & Hn3); [cbn; tauto|].
    destruct (Hb "b"%string "x"%string) as (p4 & n4 & Hp4 & Hn4); [cbn; tauto|].
    assert (E : exists joints, joint_commands self msg = inr joints
                               /\ length joints = 8%nat).
    { eexists. split; [|shelve].
      apply joint_commands_inr.
      exists ma, a1, d1, mb, a2, d2, mc, a3, d3, md, a4, d4.
      exists me, (inject_Z (p1 - n1)), mf, (inject_Z (p2 - n2)),
        mg, (inject_Z (p3 - n3)), mh, (inject_Z (p4 - n4)).
      repeat (split; [repeat split; try assumption;
                      apply button_pair_inr; eauto|]).
      reflexivity. Unshelve. reflexivity. }
    destruct E as (joints & E & Hlen). rewrite E.
    destruct joints as [|[? ?] [|[? ?] [|[? ?] [|[? ?] [|[? ?] [|[? ?]
      [|[? ?] [|[? ?] [|? ?]]]]]]]]]; try discriminate.
    eexists. reflexivity.
Qed.

(** What the arm callback publishes when it returns. *)
Lemma ra_control_callback_values log log' :
  ra_control_callback self msg log = (inr tt, log') ->
  exists ma a1 d1 mb a2 d2 mc a3 d3 md a4 d4 me be mf bf mg bg mh bh,
    (multiplier self "joint_a" = inr ma /\ axis self msg "left_js_x" = inr a1 /\
     deadzone a1 (15 # 100) = inr d1) /\
    (multiplier self "joint_b" = inr mb /\ axis self msg "left_js_y" = inr a2 /\
     deadzone a2 (15 # 100) = inr d2) /\
    (multiplier self "joint_c" = inr mc /\ axis self msg "right_js_y" = inr a3 /\
     deadzone a3 (15 # 100) = inr d3) /\
    (multiplier self "joint_d" = inr md /\ axis self msg "right_js_x" = inr a4 /\
     deadzone a4 (15 # 100) = inr d4) /\
    (multiplier self "joint_e" = inr me /\
     button_pair self msg "right_trigger" "left_trigger" = inr be) /\
    (multiplier self "joint_f" = inr mf /\
     button_pair self msg "right_bumper" "left_bumper" = inr bf) /\
    (multiplier self "finger" = inr mg /\ button_pair self msg "y" "a" = inr bg) /\
    (multiplier self "grip" = inr mh /\ button_pair self msg "b" "x" = inr bh) /\
    log'
    = log ++ [(joint_a_pub, JointStateMsg (command (ma * quadratic d1)));
              (joint_b_pub, JointStateMsg (command (mb * quadratic (- d2))));
              (joint_c_pub, JointStateMsg (command (mc * quadratic (- d3))));
              (joint_d_pub, JointStateMsg (command (md * quadratic d4)));
              (joint_e_pub, JointStateMsg (command (me * quadratic be)));
              (joint_f_pub, JointStateMsg (command (mf * bf)));
              (finger_pub, JointStateMsg (command (mg * bg)));
              (grip_pub, JointStateMsg (command (mh * bh)))].
Proof.
  rewrite ra_control_callback_run.
  destruct (joint_commands self msg) as [e|joints] eqn:E; [discriminate|].
  apply joint_commands_inr in E.
  destruct E as (ma & a1 & d1 & mb & a2 & d2 & mc & a3 & d3 & md & a4 & d4
                 & me & be & mf & bf & mg & bg & mh & bh
                 & Ha & Hb & Hc & Hd & He & Hf & Hg & Hh & ->).
  intros H. injection H as <-.
  exists ma, a1, d1, mb, a2, d2, mc, a3, d3, md, a4, d4.
  exists me, be, mf, bf, mg, bg, mh, bh.
  repeat (split; [assumption|]). reflexivity.
Qed.

Lemma scaled_small m v : Qabs v <= 1 -> Qabs (m * v) <= Qabs m.
Proof.
  intros Hv. rewrite Qabs_Qmult.
  pose proof (Qabs_nonneg m). nra.
Qed.

Lemma scaled_zero m v : v == 0 -> m * v == 0.
Proof. intros ->. ring. Qed.

Lemma stick_small a d :
  Qabs a <= 1 -> deadzone a (15 # 100) = inr d ->
  Qabs (quadratic d) <= 1 /\ Qabs (quadratic (- d)) <= 1.
Proof.
  intros Ha Hd.
  destruct (deadzone_range a (15 # 100)) as (v & Hv & Hle & _); [lra|lra|exact Ha|].
  rewrite Hd in Hv. injection Hv as <-.
  assert (Hd1 : Qabs d <= 1) by lra.
  split.
  - destruct (quadratic_shape d d) as (_ & _ & _ & H). specialize (H Hd1). lra.
  - destruct (quadratic_shape (- d) d) as (_ & _ & _ & H).
    rewrite Qabs_opp in H. specialize (H Hd1). lra.
Qed.

Lemma stick_zero a d :
  Qabs a <= 15 # 100 -> deadzone a (15 # 100) = inr d ->
  quadratic d == 0 /\ quadratic (- d) == 0.
Proof.
  intros Ha Hd.
  destruct (deadzone_inside a (15 # 100) Ha) as (v & Hv & Hz).
  rewrite Hd in Hv. injection Hv as <-.
  rewrite !quadratic_eq, Qabs_opp.
  split; apply (Qabs_case d); intros; nra.
Qed.

Lemma pair_small pos neg b :
  button_pair self msg pos neg = inr b ->
  (forall p n, button self msg pos = inr p -> button self msg neg = inr n ->
               (0 <= p <= 1)%Z /\ (0 <= n <= 1)%Z) ->
  Qabs b <= 1.
Proof.
  intros Hb Hr. apply button_pair_inr in Hb.
  destruct Hb as (p & n & Hp & Hn & ->).
  destruct (Hr p n Hp Hn) as [Hp01 Hn01].
  assert (Hc : (p - n = -1 \/ p - n = 0 \/ p - n = 1)%Z) by lia.
  destruct Hc as [-> | [-> | ->]]; cbn; unfold Qle; cbn; lia.
Qed.

Lemma pair_zero pos neg b :
  button_pair self msg pos neg = inr b ->
  button self msg pos = button self msg neg ->
  b == 0.
Proof.
  intros Hb He. apply button_pair_inr in Hb.
  destruct Hb as (p & n & Hp & Hn & ->).
  assert (p = n) by congruence. subst n.
  now rewrite Z.sub_diag.
Qed.

(** X21.  With every stick axis in [-1, 1] and every button 0 or 1, the velocity
    published for a joint is at most the multiplier of that joint in
    absolute value. *)
Theorem ra_control_callback_bounded log log' :
  ra_control_callback self msg log = (inr tt, log') ->
  (forall key a, In key stick_keys -> axis self msg key = inr a -> Qabs a <= 1) ->
  (forall pos neg p n,
     In (pos, neg) button_pairs ->
     button self msg pos = inr p -> button self msg neg = inr n ->
     (0 <= p <= 1)%Z /\ (0 <= n <= 1)%Z) ->
  exists new,
    log' = log ++ new /\
    Forall2
      (fun tj entry =>
         exists m v,
           multiplier self (snd tj) = inr m /\
           entry = (fst tj, JointStateMsg (command v)) /\
           Qabs v <= Qabs m)
      joint_table new.
Proof.
  intros Hrun Hs Hb.
  apply ra_control_callback_values in Hrun.
  destruct Hrun as (ma & a1 & d1 & mb & a2 & d2 & mc & a3 & d3 & md & a4 & d4
                    & me & be & mf & bf & mg & bg & mh & bh
                    & (Ha & Ha1 & Hd1) & (Hmb & Ha2 & Hd2) & (Hmc & Ha3 & Hd3)
                    & (Hmd & Ha4 & Hd4) & (Hme & Hbe) & (Hmf & Hbf)
                    & (Hmg & Hbg) & (Hmh & Hbh) & ->).
  eexists. split; [reflexivity|].
  assert (S1 := stick_small a1 d1 (Hs "left_js_x"%string a1 ltac:(cbn; tauto) Ha1) Hd1).
  assert (S2 := stick_small a2 d2 (Hs "left_js_y"%string a2 ltac:(cbn; tauto) Ha2) Hd2).
  assert (S3 := stick_small a3 d3 (Hs "right_js_y"%string a3 ltac:(cbn; tauto) Ha3) Hd3).
  assert (S4 := stick_small a4 d4 (Hs "right_js_x"%string a4 ltac:(cbn; tauto) Ha4) Hd4).
  assert (B1 := pair_small _ _ _ Hbe (fun p n => Hb "right_trigger"%string "left_trigger"%string p n ltac:(cbn; tauto))).
  assert (B2 := pair_small _ _ _ Hbf (fun p n => Hb "right_bumper"%string "left_bumper"%string p n ltac:(cbn; tauto))).
  assert (B3 := pair_small _ _ _ Hbg (fun p n => Hb "y"%string "a"%string p n ltac:(cbn; tauto))).
  assert (B4 := pair_small _ _ _ Hbh (fun p n => Hb "b"%string "x"%string p n ltac:(cbn; tauto))).
  assert (B1q : Qabs (quadratic be) <= 1).
  { destruct (quadratic_shape be be) as (_ & _ & _ & H). specialize (H B1). lra. }
  unfold joint_table.
  repeat (constructor;
          [do 2 eexists; cbn [fst snd];
           split; [eassumption|]; split; [reflexivity|];
           apply scaled_small; tauto|]).
  constructor.
Qed.

(** X22.  With every stick inside the dead zone of 0.15 and the two buttons of
    each pair in the same state, in particular with nothing touched,
    every velocity published is 0. *)
Theorem ra_control_callback_neutral log log' :
  ra_control_callback self msg log = (inr tt, log') ->
  (forall key a, In key stick_keys -> axis self msg key = inr a ->
                 Qabs a <= 15 # 100) ->
  (forall pos neg, In (pos, neg) button_pairs ->
                   button self msg pos = button self msg neg) ->
  exists new,
    log' = log ++ new /\
    length new = 8%nat /\
    forall topic js v,
      In (topic, JointStateMsg js) new -> In v (velocity js) -> v == 0.
Proof.
  intros Hrun Hs Hb.
  apply ra_control_callback_values in Hrun.
  destruct Hrun as (ma & a1 & d1 & mb & a2 & d2 & mc & a3 & d3 & md & a4 & d4
                    & me & be & mf & bf & mg & bg & mh & bh
                    & (Ha & Ha1 & Hd1) & (Hmb & Ha2 & Hd2) & (Hmc & Ha3 & Hd3)
                    & (Hmd & Ha4 & Hd4) & (Hme & Hbe) & (Hmf & Hbf)
                    & (Hmg & Hbg) & (Hmh & Hbh) & ->).
  eexists. split; [reflexivity|]. split; [reflexivity|].
  assert (S1 := stick_zero a1 d1 (Hs "left_js_x"%string a1 ltac:(cbn; tauto) Ha1) Hd1).
  assert (S2 := stick_zero a2 d2 (Hs "left_js_y"%string a2 ltac:(cbn; tauto) Ha2) Hd2).
  assert (S3 := stick_zero a3 d3 (Hs "right_js_y"%string a3 ltac:(cbn; tauto) Ha3) Hd3).
  assert (S4 := stick_zero a4 d4 (Hs "right_js_x"%string a4 ltac:(cbn; tauto) Ha4) Hd4).
  assert (B1 := pair_zero _ _ _ Hbe (Hb "right_trigger"%string "left_trigger"%string ltac:(cbn; tauto))).
  assert (B2 := pair_zero _ _ _ Hbf (Hb "right_bumper"%string "left_bumper"%string ltac:(cbn; tauto))).
  assert (B3 := pair_zero _ _ _ Hbg (Hb "y"%string "a"%string ltac:(cbn; tauto))).
  assert (B4 := pair_zero _ _ _ Hbh (Hb "b"%string "x"%string ltac:(cbn; tauto))).
  assert (B1q : quadratic be == 0).
  { rewrite quadratic_eq. revert B1. apply (Qabs_case be); intros; nra. }
  intros topic js v Hin Hv. cbn [In] in Hin.
  repeat (destruct Hin as [Hin|Hin];
          [injection Hin as _ <-; cbn [velocity command In] in Hv;
           destruct Hv as [<-|[]]; apply scaled_zero; tauto|]).
  contradiction.
Qed.

End Arm.

Lemma deadzone_raises_iff_witness :
  deadzone 2 1 = inl ZeroDivisionError.
Proof.
  apply (proj2 (deadzone_raises_iff 2 1 ZeroDivisionError)).
  split; [reflexivity|]. split; [reflexivity|]. vm_compute. reflexivity.
Defined.

Lemma deadzone_inside_witness :
  Qabs (1 # 10) <= 15 # 100 /\
  exists v, deadzone (1 # 10) (15 # 100) = inr v /\ v == 0.
Proof.
  assert (H : Qabs (1 # 10) <= 15 # 100) by (vm_compute; discriminate).
  split; [exact H|]. exact (deadzone_inside (1 # 10) (15 # 100) H).
Defined.

Lemma deadzone_range_witness :
  exists v, deadzone (1 # 2) (15 # 100) = inr v /\ Qabs v <= Qabs (1 # 2).
Proof.
  assert (H0 : 0 <= 15 # 100) by (vm_compute; discriminate).
  assert (H1 : 15 # 100 < 1) by reflexivity.
  assert (Hm : Qabs (1 # 2) <= 1) by (vm_compute; discriminate).
  destruct (deadzone_range (1 # 2) (15 # 100) H0 H1 Hm) as (v & Hv & Hle & _).
  exists v. split; [exact Hv|exact Hle].
Defined.

Lemma deadzone_odd_monotone_witness :
  exists v1 v2,
    deadzone (- (1 # 2)) (15 # 100) = inr v1 /\
    deadzone (1 # 2) (15 # 100) = inr v2 /\
    v2 == - v1 /\ v1 <= v2.
Proof.
  assert (H0 : 0 <= 15 # 100) by (vm_compute; discriminate).
  assert (H1 : 15 # 100 < 1) by reflexivity.
  eexists _, _. split; [reflexivity|]. split; [reflexivity|].
  destruct (deadzone_odd_monotone (- (1 # 2)) (1 # 2) (15 # 100) _ _ H0 H1
              eq_refl eq_refl) as [Hodd Hmono].
  split; [apply Hodd; reflexivity|apply Hmono; vm_compute; discriminate].
Defined.

Lemma teleop_drive_callback_zero_radius_witness :
  WHEEL_RADIUS rover_no_wheel == 0 /\
  teleop_drive_callback rover_no_wheel forward_left []
  = (inl ZeroDivisionError, []).
Proof.
  assert (H : WHEEL_RADIUS rover_no_wheel == 0) by reflexivity.
  split; [exact H|].
  exact (teleop_drive_callback_zero_radius rover_no_wheel forward_left [] H).
Defined.

Lemma teleop_drive_callback_kinematics_witness :
  exists command,
    teleop_drive_callback rover forward_left []
    = (inr tt, [(drive_vel_pub, ChassisMsg command)]) /\
    (omega_l command + omega_r command) / 2 * (1 # 4) == 1 /\
    (omega_r command - omega_l command) * (1 # 4) == 2 * (1 # 4) * (1 # 2).
Proof.
  assert (H : ~ WHEEL_RADIUS rover == 0) by (vm_compute; discriminate).
  exact (teleop_drive_callback_kinematics rover forward_left [] H).
Defined.

Lemma arm_axes_small key a :
  In key stick_keys -> axis arm joy_active key = inr a -> Qabs a <= 1.
Proof.
  intros Hin. cbn [In stick_keys] in Hin.
  repeat (destruct Hin as [<-|Hin];
          [intros H; vm_compute in H; injection H as <-; vm_compute; discriminate|]).
  contradiction.
Defined.

Lemma arm_buttons_binary pos neg p n :
  In (pos, neg) button_pairs ->
  button arm joy_active pos = inr p -> button arm joy_active neg = inr n ->
  (0 <= p <= 1)%Z /\ (0 <= n <= 1)%Z.
Proof.
  intros Hin. cbn [In button_pairs] in Hin.
  repeat (destruct Hin as [Hin|Hin];
          [injection Hin as <- <-; intros Hp Hn;
           vm_compute in Hp; vm_compute in Hn;
           injection Hp as <-; injection Hn as <-; lia|]).
  contradiction.
Defined.

Lemma ra_control_callback_returns_iff_witness :
  exists log', ra_control_callback arm joy_active [] = (inr tt, log').
Proof.
  apply (proj2 (ra_control_callback_returns_iff arm joy_active [])).
  split; [|split].
  - intros topic joint Hin. cbn [In joint_table] in Hin.
    repeat (destruct Hin as [Hin|Hin];
            [injection Hin as <- <-; eexists; vm_compute; reflexivity|]).
    contradiction.
  - intros key Hin. cbn [In stick_keys] in Hin.
    repeat (destruct Hin as [<-|Hin]; [eexists; vm_compute; reflexivity|]).
    contradiction.
  - intros pos neg Hin. cbn [In button_pairs] in Hin.
    repeat (destruct Hin as [Hin|Hin];
            [injection Hin as <- <-; do 2 eexists; split; vm_compute; reflexivity|]).
    contradiction.
Defined.

Lemma ra_control_callback_bounded_witness :
  exists new,
    snd (ra_control_callback arm joy_active []) = [] ++ new /\
    Forall2
      (fun tj entry =>
         exists m v,
           multiplier arm (snd tj) = inr m /\
           entry = (fst tj, JointStateMsg (command v)) /\
           Qabs v <= Qabs m)
      joint_table new.
Proof.
  assert (Hrun : ra_control_callback arm joy_active []
                 = (inr tt, snd (ra_control_callback arm joy_active [])))
    by (vm_compute; reflexivity).
  exact (ra_control_callback_bounded arm joy_active [] _ Hrun
           arm_axes_small arm_buttons_binary).
Defined.

Lemma arm_idle_axes key a :
  In key stick_keys -> axis arm joy_idle key = inr a -> Qabs a <= 15 # 100.
Proof.
  intros Hin. cbn [In stick_keys] in Hin.
  repeat (destruct Hin as [<-|Hin];
          [intros H; vm_compute in H; injection H as <-; vm_compute; discriminate|]).
  contradiction.
Defined.

Lemma arm_idle_buttons pos neg :
  In (pos, neg) button_pairs ->
  button arm joy_idle pos = button arm joy_idle neg.
Proof.
  intros Hin. cbn [In button_pairs] in Hin.
  repeat (destruct Hin as [Hin|Hin];
          [injection Hin as <- <-; vm_compute; reflexivity|]).
  contradiction.
Defined.

Lemma ra_control_callback_neutral_witness :
  exists new,
    snd (ra_control_callback arm joy_idle []) = [] ++ new /\
    length new = 8%nat /\
    forall topic js v,
      In (topic, JointStateMsg js) new -> In v (velocity js) -> v == 0.
Proof.
  assert (Hrun : ra_control_callback arm joy_idle []
                 = (inr tt, snd (ra_control_callback arm joy_idle [])))
    by (vm_compute; reflexivity).
  exact (ra_control_callback_neutral arm joy_idle [] _ Hrun
           arm_idle_axes arm_idle_buttons).
Defined.

(** The active controller, by evaluation: the velocities are 49/289 (the
    left stick at 1/2, past the dead zone and squared), 1/2, 0, 0, 1, 0, 0
    and 3. *)
Example ra_control_callback_active :
  map (fun entry =>
         match snd entry with
         | JointStateMsg js => map Qred (velocity js)
         | ChassisMsg _ => []
         end)
    (snd (ra_control_callback arm joy_active []))
  = [[49 # 289]; [1 # 2]; [0]; [0]; [1]; [0]; [0]; [3]].
Proof. vm_compute. reflexivity. Qed.

(** A controller without the [b] button: the callback raises on the last
    joint and has published nothing, not even the joints before it. *)
Example ra_control_callback_missing_key :
  ra_control_callback (mkArmControl xbox_without_b (ra_config arm)) joy_active []
  = (inl (KeyError "b"), []).
Proof. vm_compute. reflexivity. Qed.

End TeleopFacts.
